(** * Merkle commitments of ddrp blobs: [blob/merkle.go]

    A shallow embedding of the Merkle tree builder, the base layer, the
    sector proof protocol and the wire formats of package [blob], followed
    by the properties of that code.

    Conventions of the embedding.
    - Go's fixed-size arrays ([crypto.Hash] is [[32]byte], [MerkleBase] is
      [[256]crypto.Hash], [MerkleProof] is [[256]byte], [Sector] is
      [[SectorLen]byte]) are lists; a property that depends on the length
      states it.
    - [int], [uint8] and [uint64] values are integers of [Z], with the
      wrap-around of a conversion written out.
    - An [io.Reader] is an in-memory byte stream (the behaviour of
      [bytes.Reader]); an [io.Writer] is an append-only buffer (the
      behaviour of [bytes.Buffer]), whose writes never fail.
    - A call either returns a value, returns a Go [error], or panics. *)

From Stdlib Require Import String ZArith List Bool Lia Sorted.
From Stdlib.Strings Require Import Byte.
Import ListNotations.
Local Open Scope Z_scope.

(** ** Blake2b-256 *)

(** Modelled from the spec: the digest function of package [ddrp/crypto]
    is not part of [blob/merkle.go]; the spec names it as Blake2b-256.
    This is the unkeyed Blake2b of RFC 7693 with a 32-byte output. *)
Module Blake2b.

(** 64-bit words: addition wraps, [rotr64] rotates to the right. *)
Definition w64 (x : Z) : Z := Z.land x 0xffffffffffffffff.
Definition rotr64 (x n : Z) : Z :=
  Z.lor (Z.shiftr x n) (w64 (Z.shiftl x (64 - n))).

Definition IV : list Z :=
  [ 0x6a09e667f3bcc908; 0xbb67ae8584caa73b; 0x3c6ef372fe94f82b;
    0xa54ff53a5f1d36f1; 0x510e527fade682d1; 0x9b05688c2b3e6c1f;
    0x1f83d9abfb41bd6b; 0x5be0cd19137e2179 ].

Definition SIGMA : list (list nat) :=
  ([ [0; 1; 2; 3; 4; 5; 6; 7; 8; 9; 10; 11; 12; 13; 14; 15];
    [14; 10; 4; 8; 9; 15; 13; 6; 1; 12; 0; 2; 11; 7; 5; 3];
    [11; 8; 12; 0; 5; 2; 15; 13; 10; 14; 3; 6; 7; 1; 9; 4];
    [7; 9; 3; 1; 13; 12; 11; 14; 2; 6; 5; 10; 4; 0; 15; 8];
    [9; 0; 5; 7; 2; 4; 10; 15; 14; 1; 11; 12; 6; 8; 3; 13];
    [2; 12; 6; 10; 0; 11; 8; 3; 4; 13; 7; 5; 15; 14; 1; 9];
    [12; 5; 1; 15; 14; 13; 4; 10; 0; 7; 6; 3; 9; 2; 8; 11];
    [13; 11; 7; 14; 12; 1; 3; 9; 5; 0; 15; 4; 8; 6; 2; 10];
    [6; 15; 14; 9; 11; 3; 0; 8; 12; 2; 13; 7; 1; 4; 10; 5];
    [10; 2; 8; 4; 7; 6; 1; 5; 15; 11; 9; 14; 3; 12; 13; 0] ])%nat.

Definition get (v : list Z) (i : nat) : Z := nth i v 0.

Fixpoint set (v : list Z) (i : nat) (x : Z) : list Z :=
  match v, i with
  | [], _ => []
  | _ :: v', O => x :: v'
  | y :: v', S i' => y :: set v' i' x
  end.

(** The mixing function [G] on the working vector [v]. *)
Definition G (v : list Z) (a b c d : nat) (x y : Z) : list Z :=
  let a1 := w64 (get v a + get v b + x) in
  let d1 := rotr64 (Z.lxor (get v d) a1) 32 in
  let c1 := w64 (get v c + d1) in
  let b1 := rotr64 (Z.lxor (get v b) c1) 24 in
  let a2 := w64 (a1 + b1 + y) in
  let d2 := rotr64 (Z.lxor d1 a2) 16 in
  let c2 := w64 (c1 + d2) in
  let b2 := rotr64 (Z.lxor b1 c2) 63 in
  set (set (set (set v a a2) b b2) c c2) d d2.

Definition round (m : list Z) (v : list Z) (r : nat) : list Z :=
  let s := nth (r mod 10) SIGMA [] in
  let mi k := get m (nth k s O) in
  let v := G v 0 4 8 12 (mi 0%nat) (mi 1%nat) in
  let v := G v 1 5 9 13 (mi 2%nat) (mi 3%nat) in
  let v := G v 2 6 10 14 (mi 4%nat) (mi 5%nat) in
  let v := G v 3 7 11 15 (mi 6%nat) (mi 7%nat) in
  let v := G v 0 5 10 15 (mi 8%nat) (mi 9%nat) in
  let v := G v 1 6 11 12 (mi 10%nat) (mi 11%nat) in
  let v := G v 2 7 8 13 (mi 12%nat) (mi 13%nat) in
  G v 3 4 9 14 (mi 14%nat) (mi 15%nat).

(** The compression function [F]: state [h], message block [m] of 16
    words, byte offset [t], and the flag of the last block. *)
Definition F (h m : list Z) (t : Z) (last : bool) : list Z :=
  let v := h ++ IV in
  let v := set v 12 (Z.lxor (get v 12) (w64 t)) in
  let v := set v 13 (Z.lxor (get v 13) (Z.shiftr t 64)) in
  let v := if last then set v 14 (Z.lxor (get v 14) 0xffffffffffffffff) else v in
  let v := fold_left (round m) (seq 0 12) v in
  map (fun i => Z.lxor (Z.lxor (get h i) (get v i)) (get v (i + 8))) (seq 0 8).

Definition le_word (bs : list byte) : Z :=
  fold_right (fun b acc => Z.of_N (Byte.to_N b) + 256 * acc) 0 bs.

Fixpoint words (n : nat) (bs : list byte) : list Z :=
  match n with
  | O => []
  | S n' => le_word (firstn 8 bs) :: words n' (skipn 8 bs)
  end.

Definition block (buf : list byte) : list Z :=
  words 16 (buf ++ repeat x00 (128 - length buf)).

(** The input is buffered 128 bytes at a time; a full buffer is compressed
    only when more input follows, and the last buffer is padded with
    zeros. *)
Fixpoint absorb (h : list Z) (t : Z) (buf : list byte) (n : nat)
    (msg : list byte) : list Z :=
  match msg with
  | [] => F h (block buf) (t + Z.of_nat n) true
  | b :: rest =>
      if Nat.eqb n 128
      then absorb (F h (block buf) (t + 128) false) (t + 128) [b] 1 rest
      else absorb h t (buf ++ [b]) (S n) rest
  end.

Definition byte_of_Z (z : Z) : byte :=
  match Byte.of_N (Z.to_N (Z.land z 0xff)) with
  | Some b => b
  | None => x00
  end.

Definition le_bytes (x : Z) : list byte :=
  [ byte_of_Z x; byte_of_Z (Z.shiftr x 8); byte_of_Z (Z.shiftr x 16);
    byte_of_Z (Z.shiftr x 24); byte_of_Z (Z.shiftr x 32);
    byte_of_Z (Z.shiftr x 40); byte_of_Z (Z.shiftr x 48);
    byte_of_Z (Z.shiftr x 56) ].

(** Modelled from the spec: Blake2b-256, the unkeyed Blake2b of RFC 7693
    with [nn = 32]; [crypto.Blake2B256] is declared outside
    [blob/merkle.go]. *)
Definition sum256 (msg : list byte) : list byte :=
  let h0 := set IV 0 (Z.lxor (get IV 0) 0x01010020) in
  let h := absorb h0 0 [] 0 msg in
  le_bytes (get h 0) ++ le_bytes (get h 1) ++ le_bytes (get h 2)
    ++ le_bytes (get h 3).

End Blake2b.

(** ** Package [crypto] *)

Module crypto.

(** [type Hash [32]byte] *)
Definition Hash : Type := list byte.

Definition HashLen : nat := 32.

(** Modelled from the spec: [crypto.Blake2B256(data ...[]byte)], the
    Blake2b-256 digest of the concatenation of its arguments. *)
Definition Blake2B256 (data : list (list byte)) : Hash :=
  Blake2b.sum256 (concat data).

(** [h.Bytes()] *)
Definition Bytes (h : Hash) : list byte := h.

End crypto.

(** ** Outcomes, readers and writers *)

Inductive error : Type :=
| EOF
| ErrUnexpectedEOF
| ErrorString (msg : string).

(** The outcome of a call: a value, a returned [error], a panic, or a loop
    of the model that ran out of iterations. *)
Inductive result (A : Type) : Type :=
| Ok (a : A)
| Err (e : error)
| Panic
| OutOfFuel.

Arguments Ok {A} a.
Arguments Err {A} e.
Arguments Panic {A}.
Arguments OutOfFuel {A}.

Definition bind {A B : Type} (m : result A) (f : A -> result B) : result B :=
  match m with
  | Ok a => f a
  | Err e => Err e
  | Panic => Panic
  | OutOfFuel => OutOfFuel
  end.

Notation "x <- m ;; k" := (bind m (fun x => k))
  (at level 61, m at next level, right associativity).

Definition Reader : Type := list byte.
Definition Writer : Type := list byte.

(** [r.Read(p)] on an in-memory stream: at the end of the stream it
    reports [io.EOF]; otherwise it overwrites the first
    [min (len p) (remaining)] bytes of [p] and reports no error. *)
Definition Read (r : Reader) (p : list byte)
  : Reader * list byte * Z * option error :=
  match r with
  | [] => (r, p, 0, Some EOF)
  | _ :: _ =>
      let n := Nat.min (length p) (length r) in
      (skipn n r, firstn n r ++ skipn n p, Z.of_nat n, None)
  end.

(** [io.ReadFull(r, buf)] for a buffer of [size] bytes: the whole buffer
    or an error ([io.EOF] when nothing was read, [io.ErrUnexpectedEOF]
    when the stream ended early, which drains it). *)
Definition ReadFull (r : Reader) (size : nat) : Reader * result (list byte) :=
  if (length r <? size)%nat
  then ([], Err (match r with [] => EOF | _ :: _ => ErrUnexpectedEOF end))
  else (skipn size r, Ok (firstn size r)).

(** [w.Write(p)] *)
Definition Write (w : Writer) (p : list byte) : Writer * option error :=
  (w ++ p, None).

(** Modelled from the spec: [h.Decode(r)] of [crypto.Hash] reads the 32
    bytes of one digest, and fails on a truncated stream. *)
Definition Hash_Decode (r : Reader) : Reader * result crypto.Hash :=
  ReadFull r crypto.HashLen.

(** ** Integers and indexing *)

Definition uint8 (x : Z) : Z := x mod 256.
Definition uint64 (x : Z) : Z := x mod 2 ^ 64.
Definition MaxUint32 : Z := 4294967295.

Definition byte_to_Z (b : byte) : Z := Z.of_N (Byte.to_N b).

Definition Z_to_byte (z : Z) : byte :=
  match Byte.of_N (Z.to_N (uint8 z)) with
  | Some b => b
  | None => x00
  end.

Fixpoint pos_ones (p : positive) : Z :=
  match p with
  | xH => 1
  | xO q => pos_ones q
  | xI q => 1 + pos_ones q
  end.

(** [bits.OnesCount64(x)], for [x] a [uint64] *)
Definition OnesCount64 (x : Z) : Z :=
  match x with
  | Zpos p => pos_ones p
  | _ => 0
  end.

(** [l[i]]: an index out of range panics. *)
Definition index {A : Type} (l : list A) (i : Z) : result A :=
  if i <? 0 then Panic
  else match nth_error l (Z.to_nat i) with
       | Some x => Ok x
       | None => Panic
       end.

(** [l[i] = x] on an array whose index is in range. *)
Fixpoint store {A : Type} (l : list A) (i : nat) (x : A) : list A :=
  match l, i with
  | [], _ => []
  | _ :: l', O => x :: l'
  | y :: l', S i' => y :: store l' i' x
  end.

Definition len {A : Type} (l : list A) : Z := Z.of_nat (length l).

(** [bytes.Equal(a, b)], also [==] on byte arrays *)
Fixpoint bytes_Equal (a b : list byte) : bool :=
  match a, b with
  | [], [] => true
  | x :: a', y :: b' => Byte.eqb x y && bytes_Equal a' b'
  | _, _ => false
  end.

(** [==] on arrays of digests *)
Fixpoint hashes_Equal (a b : list crypto.Hash) : bool :=
  match a, b with
  | [], [] => true
  | x :: a', y :: b' => bytes_Equal x y && hashes_Equal a' b'
  | _, _ => false
  end.

(** ** Package [blob]: constants *)

Definition MerkleTreeHeight : nat := 8.
Definition MerkleProofLen : nat := 8 * 32.
Definition SubsectorSize : Z := 4096.
Definition SubsectorProofLevel : nat := 8.

Definition precomputes : list (crypto.Hash * crypto.Hash) :=
  [
    ([x68; x6e; xde; x92; x88; xc3; x91; xe7; xe0; x50; x26; xe5; x6f; x2f;
      x91; xbf; xd8; x79; x98; x7a; x04; x0e; xa9; x84; x45; xda; xbc; x76;
      xf5; x5b; x8e; x5f],
     [x49; xe4; xb8; x0d; x5b; x7d; x8d; x93; x22; x48; x25; xf2; x6c; x45;
      x98; x7e; x10; x7b; xbf; x2f; x87; x1d; x4e; x56; x36; xac; x55; x0f;
      xf1; x25; xe0; x82]);
    ([x49; xe4; xb8; x0d; x5b; x7d; x8d; x93; x22; x48; x25; xf2; x6c; x45;
      x98; x7e; x10; x7b; xbf; x2f; x87; x1d; x4e; x56; x36; xac; x55; x0f;
      xf1; x25; xe0; x82],
     [xb7; x95; x51; x37; x10; x7e; x8c; x87; x98; x94; xa9; x47; xa2; x35;
      xec; xd2; xa4; x22; x5a; x6c; x82; x12; x97; x6e; x97; x6c; x50; x31;
      x9b; x59; x31; xb3]);
    ([xb7; x95; x51; x37; x10; x7e; x8c; x87; x98; x94; xa9; x47; xa2; x35;
      xec; xd2; xa4; x22; x5a; x6c; x82; x12; x97; x6e; x97; x6c; x50; x31;
      x9b; x59; x31; xb3],
     [x47; x19; x5c; x0c; xa9; x4e; x02; x20; xcd; x01; xbe; x88; x32; x00;
      xfd; xbf; x71; x48; x13; x64; x94; x2b; xa1; xe8; xd3; xef; x4c; x9a;
      x3d; xc4; xb6; xa5]);
    ([x47; x19; x5c; x0c; xa9; x4e; x02; x20; xcd; x01; xbe; x88; x32; x00;
      xfd; xbf; x71; x48; x13; x64; x94; x2b; xa1; xe8; xd3; xef; x4c; x9a;
      x3d; xc4; xb6; xa5],
     [x53; x2a; x12; xf0; x9f; xeb; xf8; x52; x14; x19; x95; x99; x73; xad;
      x53; x46; x94; x4c; x2b; x22; xbf; x76; x4d; x0e; x1a; x34; x25; x5b;
      x65; x64; xfe; x4b]);
    ([x53; x2a; x12; xf0; x9f; xeb; xf8; x52; x14; x19; x95; x99; x73; xad;
      x53; x46; x94; x4c; x2b; x22; xbf; x76; x4d; x0e; x1a; x34; x25; x5b;
      x65; x64; xfe; x4b],
     [xff; xe2; xcf; x7e; xcd; x1b; x99; x32; x35; x74; x6b; xe2; x1e; x91;
      xc8; xe6; x1a; x1e; x22; xda; xce; x98; x50; x91; x25; x85; x41; x65;
      x01; xe9; x84; x47]);
    ([xff; xe2; xcf; x7e; xcd; x1b; x99; x32; x35; x74; x6b; xe2; x1e; x91;
      xc8; xe6; x1a; x1e; x22; xda; xce; x98; x50; x91; x25; x85; x41; x65;
      x01; xe9; x84; x47],
     [x60; x52; x2e; x01; x34; x1f; xe9; x62; x54; x66; x8b; xa1; xbc; x2c;
      x79; xdd; x6f; xc6; x6b; x37; x84; xc2; xeb; x39; xd4; xf0; x73; x19;
      xc6; x23; x26; x57]);
    ([x60; x52; x2e; x01; x34; x1f; xe9; x62; x54; x66; x8b; xa1; xbc; x2c;
      x79; xdd; x6f; xc6; x6b; x37; x84; xc2; xeb; x39; xd4; xf0; x73; x19;
      xc6; x23; x26; x57],
     [xae; x01; x82; xab; x78; x03; xfc; x44; xd0; x85; xc1; xc7; x34; xa5;
      x52; xff; xfd; xb0; xf7; x44; x17; x9f; x0d; x95; xbd; x60; xdd; x6f;
      x8f; x18; x18; xaf]);
    ([xae; x01; x82; xab; x78; x03; xfc; x44; xd0; x85; xc1; xc7; x34; xa5;
      x52; xff; xfd; xb0; xf7; x44; x17; x9f; x0d; x95; xbd; x60; xdd; x6f;
      x8f; x18; x18; xaf],
     [xf3; x4c; x7d; x70; xb6; x52; xeb; xa4; x8e; x02; xb4; x71; x7e; x1f;
      x0a; x2b; xe9; x33; x7b; x07; x51; xcc; xf7; xbf; x36; x44; x67; x4c;
      xbe; x64; x23; xd5]);
    ([xf3; x4c; x7d; x70; xb6; x52; xeb; xa4; x8e; x02; xb4; x71; x7e; x1f;
      x0a; x2b; xe9; x33; x7b; x07; x51; xcc; xf7; xbf; x36; x44; x67; x4c;
      xbe; x64; x23; xd5],
     [x32; x00; xb9; x9b; xfc; xd8; x2c; x64; xc8; x18; xb1; xa2; xb2; x6e;
      x14; xbf; x78; x4f; xe9; x18; x8a; x55; x9b; x6b; x38; xa6; xdd; xa4;
      xfb; x55; x31; x47]);
    ([x32; x00; xb9; x9b; xfc; xd8; x2c; x64; xc8; x18; xb1; xa2; xb2; x6e;
      x14; xbf; x78; x4f; xe9; x18; x8a; x55; x9b; x6b; x38; xa6; xdd; xa4;
      xfb; x55; x31; x47],
     [xb8; x6b; xe3; xa8; xb2; x88; xb0; xef; x0b; x7e; xe5; xa9; x85; x2d;
      x11; x81; x67; xa5; x0c; x84; x71; xbf; xb9; xfb; x8f; x0c; x79; x92;
      xf4; x52; xc7; x9c]);
    ([xb8; x6b; xe3; xa8; xb2; x88; xb0; xef; x0b; x7e; xe5; xa9; x85; x2d;
      x11; x81; x67; xa5; x0c; x84; x71; xbf; xb9; xfb; x8f; x0c; x79; x92;
      xf4; x52; xc7; x9c],
     [xaa; xbd; xcb; xb2; x3b; xfc; xea; xfe; x71; xf3; x83; x4a; x17; xec;
      x1d; x24; xbd; x4e; xf2; xda; xed; x68; xd2; xcc; xc3; xc2; x98; x9f;
      xd0; x92; xe3; x53]);
    ([xaa; xbd; xcb; xb2; x3b; xfc; xea; xfe; x71; xf3; x83; x4a; x17; xec;
      x1d; x24; xbd; x4e; xf2; xda; xed; x68; xd2; xcc; xc3; xc2; x98; x9f;
      xd0; x92; xe3; x53],
     [x7d; x1e; x84; xe6; x2d; x7e; xc9; xf6; xbc; x3f; x88; x66; x75; x73;
      x3d; xa0; x6d; xaf; x02; x77; xad; x8f; xfc; xf7; xc5; x39; x93; x8c;
      xa5; xee; x9c; xf2])
  ].

Definition zero4kSectorHash : crypto.Hash :=
  [x68; x6e; xde; x92; x88; xc3; x91; xe7; xe0; x50; x26; xe5; x6f; x2f;
   x91; xbf; xd8; x79; x98; x7a; x04; x0e; xa9; x84; x45; xda; xbc; x76;
   xf5; x5b; x8e; x5f].

Definition EmptyBlobMerkleRoot : crypto.Hash :=
  [x7d; x1e; x84; xe6; x2d; x7e; xc9; xf6; xbc; x3f; x88; x66; x75; x73;
   x3d; xa0; x6d; xaf; x02; x77; xad; x8f; xfc; xf7; xc5; x39; x93; x8c;
   xa5; xee; x9c; xf2].

Definition EmptyBlobBaseHash : crypto.Hash :=
  [x53; x2a; x12; xf0; x9f; xeb; xf8; x52; x14; x19; x95; x99; x73; xad;
   x53; x46; x94; x4c; x2b; x22; xbf; x76; x4d; x0e; x1a; x34; x25; x5b;
   x65; x64; xfe; x4b].

Definition zero4kSector : list byte := repeat x00 4096.

Definition zeroHash : crypto.Hash := repeat x00 32.

(** The zero value of [MerkleBase] *)
Definition ZeroMerkleBase : list crypto.Hash := repeat zeroHash 256.

(** [precomputes[k]] *)
Fixpoint lookup (tbl : list (crypto.Hash * crypto.Hash)) (k : crypto.Hash)
  : option crypto.Hash :=
  match tbl with
  | [] => None
  | (k', v) :: tbl' => if bytes_Equal k' k then Some v else lookup tbl' k
  end.

(** ** Digest algebra *)

Definition hashLeaf (input : list byte) : crypto.Hash :=
  if bytes_Equal zero4kSector input then zero4kSectorHash
  else crypto.Blake2B256 [input].

Definition hashLevel (left right : crypto.Hash) : crypto.Hash :=
  match lookup precomputes left with
  | Some precompRes =>
      if bytes_Equal left right then precompRes
      else crypto.Blake2B256 [left; right]
  | None => crypto.Blake2B256 [left; right]
  end.

(** ** Merkle base *)

Definition MerkleBase : Type := list crypto.Hash.
Definition MerkleProof : Type := list byte.
Definition MerkleTree : Type := list (list crypto.Hash).
Definition Sector : Type := list byte.

Fixpoint write_hashes (hs : list crypto.Hash) (w : Writer)
  : Writer * option error :=
  match hs with
  | [] => (w, None)
  | h :: hs' =>
      match Write w (crypto.Bytes h) with
      | (w', Some err) => (w', Some err)
      | (w', None) => write_hashes hs' w'
      end
  end.

Definition MerkleBase_Encode (m : MerkleBase) (w : Writer)
  : Writer * option error :=
  write_hashes m w.

(** The loop of [MerkleBase.Decode]: [n] iterations are left, [i] is the
    loop index, [hash] the buffer declared before the loop and [res] the
    array being filled. *)
Fixpoint MerkleBase_Decode_loop (n i : nat) (r : Reader) (hash : crypto.Hash)
    (res : MerkleBase) : Reader * result MerkleBase :=
  match n with
  | O => (r, Ok res)
  | S n' =>
      match Read r hash with
      | (r', _, _, Some err) => (r', Err err)
      | (r', hash', _, None) =>
          MerkleBase_Decode_loop n' (S i) r' hash' (store res i hash')
      end
  end.

Definition MerkleBase_Decode (r : Reader) : Reader * result MerkleBase :=
  MerkleBase_Decode_loop (length ZeroMerkleBase) 0 r zeroHash ZeroMerkleBase.

Fixpoint DiffWith_loop (n : nat) (i : Z) (m other : MerkleBase)
    (out : list Z) : list Z :=
  match n with
  | O => out
  | S n' =>
      let out' :=
        if bytes_Equal (nth (Z.to_nat i) m zeroHash)
                       (nth (Z.to_nat i) other zeroHash)
        then out else out ++ [uint8 i] in
      DiffWith_loop n' (i + 1) m other out'
  end.

Definition DiffWith (m other : MerkleBase) : list Z :=
  if hashes_Equal m other then []
  else DiffWith_loop (length m) 0 m other [].

(** ** Merkle proof *)

Definition MerkleProof_Encode (m : MerkleProof) (w : Writer)
  : Writer * option error :=
  Write w m.

Definition MerkleProof_Decode (r : Reader) : Reader * result MerkleProof :=
  ReadFull r MerkleProofLen.

(** [copy(dst, src)] *)
Definition copy (dst src : list byte) : list byte :=
  let n := Nat.min (length dst) (length src) in
  firstn n src ++ skipn n dst.

(** The loop of [MakeSectorProof], for [i] from [SubsectorProofLevel] down
    to 1; [pos] is a [uint8]. *)
Fixpoint MakeSectorProof_loop (i : nat) (tree : MerkleTree) (pos : Z)
    (buf : list byte) : result (list byte) :=
  match i with
  | O => Ok buf
  | S i' =>
      level <- index tree (Z.of_nat i) ;;
      sibling <- (if pos mod 2 =? 0 then index level (uint8 (pos + 1))
                  else index level (uint8 (pos - 1))) ;;
      MakeSectorProof_loop i' tree (pos / 2) (buf ++ crypto.Bytes sibling)
  end.

Definition MakeSectorProof (tree : MerkleTree) (sectorID : Z)
  : result MerkleProof :=
  buf <- MakeSectorProof_loop SubsectorProofLevel tree sectorID [] ;;
  Ok (copy (repeat x00 MerkleProofLen) buf).

(** ** Tree builder *)

(** The inner loop of [newMerkleTreeFromHashedLeaves]: the parents of one
    level; a level of odd length panics at [tree[0][i+1]]. *)
Fixpoint parents (level : list crypto.Hash) : result (list crypto.Hash) :=
  match level with
  | [] => Ok []
  | [_] => Panic
  | l :: r :: rest =>
      up <- parents rest ;;
      Ok (hashLevel l r :: up)
  end.

(** The outer loop of [newMerkleTreeFromHashedLeaves]. *)
Fixpoint grow (fuel : nat) (tree : MerkleTree) : result MerkleTree :=
  match fuel with
  | O => OutOfFuel
  | S fuel' =>
      top <- index tree 0 ;;
      if len top >? 1
      then level <- parents top ;; grow fuel' (level :: tree)
      else Ok tree
  end.

Definition newMerkleTreeFromHashedLeaves (base : list crypto.Hash)
  : result MerkleTree :=
  if negb (OnesCount64 (uint64 (len base)) =? 1)
  then Err (ErrorString "base must have a power of two length")
  else grow (S (length base)) [base].

(** The read loop of [NewMerkleTreeFromReader], with [n] iterations left. *)
Fixpoint read_leaves (n : nat) (r : Reader) (leafSize : nat)
    (base : list crypto.Hash) : Reader * result (list crypto.Hash) :=
  match n with
  | O => (r, Ok base)
  | S n' =>
      match ReadFull r leafSize with
      | (r', Ok buf) => read_leaves n' r' leafSize (base ++ [hashLeaf buf])
      | (r', Err err) => (r', Err err)
      | (r', Panic) => (r', Panic)
      | (r', OutOfFuel) => (r', OutOfFuel)
      end
  end.

Definition NewMerkleTreeFromReader (r : Reader) (leafCount leafSize : Z)
  : Reader * result MerkleTree :=
  if leafCount >? MaxUint32
  then (r, Err (ErrorString "leafCount must be less than math.MaxUint32"))
  else if negb (OnesCount64 (uint64 leafCount) =? 1)
  then (r, Err (ErrorString "leafCount must be a power of two"))
  else if leafSize <? 0 then (r, Panic)
  else
    match read_leaves (Z.to_nat leafCount) r (Z.to_nat leafSize) [] with
    | (r', Ok base) => (r', newMerkleTreeFromHashedLeaves base)
    | (r', Err err) => (r', Err err)
    | (r', Panic) => (r', Panic)
    | (r', OutOfFuel) => (r', OutOfFuel)
    end.

Definition MakeTreeFromBase (base : MerkleBase) : result MerkleTree :=
  match newMerkleTreeFromHashedLeaves base with
  | Err _ => Panic
  | t => t
  end.

Definition Root (t : MerkleTree) : result crypto.Hash :=
  top <- index t 0 ;; index top 0.

(** The element-wise copy loops of [Level] and [ProtocolBase]:
    [out[i] = data[i]] for [i] from [i] on, [n] iterations left. *)
Fixpoint copy_loop (n i : nat) (data out : list crypto.Hash)
  : result (list crypto.Hash) :=
  match n with
  | O => Ok out
  | S n' =>
      x <- index data (Z.of_nat i) ;;
      copy_loop n' (S i) data (store out i x)
  end.

Definition Level (t : MerkleTree) (i : Z) : result (list crypto.Hash) :=
  level <- index t i ;;
  copy_loop (length level) 0 level (repeat zeroHash (length level)).

Definition ProtocolBase (t : MerkleTree) : result MerkleBase :=
  data <- Level t 8 ;;
  if negb (len data =? len ZeroMerkleBase) then Panic
  else copy_loop (length ZeroMerkleBase) 0 data ZeroMerkleBase.

Definition Height (t : MerkleTree) : result Z :=
  if len t =? 0 then Panic else Ok (len t - 1).

(** The level loop of [MerkleTree.Encode], for [i] from [n - 1] down
    to 0. *)
Fixpoint Encode_levels (n : nat) (t : MerkleTree) (w : Writer)
  : result (Writer * option error) :=
  match n with
  | O => Ok (w, None)
  | S n' =>
      level <- index t (Z.of_nat n') ;;
      match write_hashes level w with
      | (w', Some err) => Ok (w', Some err)
      | (w', None) => Encode_levels n' t w'
      end
  end.

Definition MerkleTree_Encode (t : MerkleTree) (w : Writer)
  : result (Writer * option error) :=
  h <- Height t ;;
  match Write w [Z_to_byte (uint8 h)] with
  | (w', Some err) => Ok (w', Some err)
  | (w', None) => Encode_levels (length t) t w'
  end.

(** The inner loop of [MerkleTree.Decode], with [n] digests left to read. *)
Fixpoint read_hashes (n : nat) (r : Reader) (level : list crypto.Hash)
  : Reader * result (list crypto.Hash) :=
  match n with
  | O => (r, Ok level)
  | S n' =>
      match Hash_Decode r with
      | (r', Ok h) => read_hashes n' r' (level ++ [h])
      | (r', Err err) => (r', Err err)
      | (r', Panic) => (r', Panic)
      | (r', OutOfFuel) => (r', OutOfFuel)
      end
  end.

(** The outer loop of [MerkleTree.Decode]. *)
Fixpoint Decode_levels (fuel : nat) (toRead : Z) (r : Reader)
    (tree : MerkleTree) : Reader * result MerkleTree :=
  match fuel with
  | O => (r, OutOfFuel)
  | S fuel' =>
      match read_hashes (Z.to_nat toRead) r [] with
      | (r', Ok level) =>
          let tree' := level :: tree in
          if toRead =? 1 then (r', Ok tree')
          else Decode_levels fuel' (toRead / 2) r' tree'
      | (r', Err err) => (r', Err err)
      | (r', Panic) => (r', Panic)
      | (r', OutOfFuel) => (r', OutOfFuel)
      end
  end.

Definition MerkleTree_Decode (r : Reader) : Reader * result MerkleTree :=
  match ReadFull r 1 with
  | (r', Ok heightB) =>
      let height := byte_to_Z (hd x00 heightB) in
      if height >? 32
      then (r', Err (ErrorString "refusing decode tree over 32 levels deep"))
      else Decode_levels 33 (Z.shiftl 1 (uint8 height)) r' []
  | (r', Err err) => (r', Err err)
  | (r', Panic) => (r', Panic)
  | (r', OutOfFuel) => (r', OutOfFuel)
  end.

(** ** Sectors *)

Section Config.

(** The byte lengths of a blob and of a sector, [blob.Size] and
    [blob.SectorLen], are declared outside [blob/merkle.go]. *)
Variables Size SectorLen : Z.

Definition SubsectorCountBlob : Z := Size / SubsectorSize.
Definition SubsectorCountSector : Z := SectorLen / SubsectorSize.

Definition Merkleize (br : Reader) : Reader * result MerkleTree :=
  NewMerkleTreeFromReader br SubsectorCountBlob SubsectorSize.

Definition HashSector (sector : Sector) : result crypto.Hash :=
  match NewMerkleTreeFromReader sector SubsectorCountSector SubsectorSize with
  | (_, Ok sectorTree) => Root sectorTree
  | (_, Err _) => Panic
  | (_, Panic) => Panic
  | (_, OutOfFuel) => OutOfFuel
  end.

(** The loop of [VerifySectorProof], with [n] iterations left. *)
Fixpoint VerifySectorProof_loop (n : nat) (pRdr : Reader) (pos : Z)
    (currHash : crypto.Hash) : option crypto.Hash :=
  match n with
  | O => Some currHash
  | S n' =>
      match ReadFull pRdr crypto.HashLen with
      | (pRdr', Ok proofHash) =>
          let currHash' :=
            if pos mod 2 =? 0 then hashLevel currHash proofHash
            else hashLevel proofHash currHash in
          VerifySectorProof_loop n' pRdr' (pos / 2) currHash'
      | _ => None
      end
  end.

Definition VerifySectorProof (sector : Sector) (sectorID : Z)
    (merkleRoot : crypto.Hash) (proof : MerkleProof) : result bool :=
  currHash <- HashSector sector ;;
  match VerifySectorProof_loop MerkleTreeHeight proof sectorID currHash with
  | None => Ok false
  | Some final => Ok (bytes_Equal final merkleRoot)
  end.

End Config.

(** The [p]-th sector of a blob: [SectorLen] bytes from [p * SectorLen]. *)
Definition sector_at (SectorLen : Z) (blob : list byte) (p : Z) : Sector :=
  firstn (Z.to_nat SectorLen) (skipn (Z.to_nat (p * SectorLen)) blob).

(** ** Vocabulary of the properties *)

(** The positions below [n] at which two bases differ, in ascending
    order. *)
Definition differing (a b : MerkleBase) (n : nat) : list nat :=
  filter (fun i => negb (bytes_Equal (nth i a zeroHash) (nth i b zeroHash)))
         (seq 0 n).

(** The parents of a level, pair by pair from the left. *)
Fixpoint pairs (level : list crypto.Hash) : list crypto.Hash :=
  match level with
  | l :: r :: rest => hashLevel l r :: pairs rest
  | _ => []
  end.

(** [k] halvings on top of a tree: the levels built bottom-up. *)
Fixpoint halve_up (k : nat) (tree : MerkleTree) : MerkleTree :=
  match k with
  | O => tree
  | S k' =>
      match tree with
      | [] => []
      | top :: _ => halve_up k' (pairs top :: tree)
      end
  end.

(** The first [n] blocks of [size] bytes of a stream. *)
Fixpoint blocks (n size : nat) (r : list byte) : list (list byte) :=
  match n with
  | O => []
  | S n' => firstn size r :: blocks n' size (skipn size r)
  end.

(** Level [i] of a tree holds [2^i] digests. *)
Definition WellShaped (T : MerkleTree) : Prop :=
  T <> [] /\
  forall (i : nat) (level : list crypto.Hash),
    nth_error T i = Some level -> length level = (2 ^ i)%nat.

(** Each parent is [hashLevel] of its two children. *)
Definition ParentsHashed (T : MerkleTree) : Prop :=
  forall (i j : nat) (up down : list crypto.Hash) (x : crypto.Hash),
    nth_error T i = Some up -> nth_error T (S i) = Some down ->
    nth_error up j = Some x ->
    exists l r : crypto.Hash,
      nth_error down (2 * j) = Some l /\
      nth_error down (2 * j + 1) = Some r /\
      x = hashLevel l r.

Definition WellFormed (T : MerkleTree) : Prop :=
  WellShaped T /\ ParentsHashed T.

(** Every digest of a tree has the 32 bytes of a [crypto.Hash]. *)
Definition digests_ok (T : MerkleTree) : bool :=
  forallb (forallb (fun h : crypto.Hash => (length h =? 32)%nat)) T.

(** The height of a non-empty tree, as a natural number. *)
Definition height (T : MerkleTree) : nat := (length T - 1)%nat.

(** The root of an all-zero tree of height [k]: the digest of the all-zero
    subsector paired with itself [k] times. *)
Definition zero_root (k : nat) : crypto.Hash :=
  Nat.iter k (fun d => hashLevel d d) zero4kSectorHash.

(** The Merkle root of [2^k] leaves, by halves: the digest of a single
    leaf is the leaf, and the digest of two halves is [hashLevel] of their
    digests. *)
Fixpoint merkle_root (k : nat) (leaves : list crypto.Hash) : crypto.Hash :=
  match k with
  | O => hd zeroHash leaves
  | S k' =>
      hashLevel (merkle_root k' (firstn (2 ^ k') leaves))
                (merkle_root k' (skipn (2 ^ k') leaves))
  end.

(** The [j]-th group of [n] consecutive elements of a list. *)
Definition group {A : Type} (n j : nat) (l : list A) : list A :=
  firstn n (skipn (j * n) l).

(** The levels that a stream carries after the height byte [j], root level
    first: the stream holds the [2^j] digests of the leaf level first. *)
Fixpoint wire_levels (j : nat) (r : list byte) : MerkleTree :=
  match j with
  | O => [blocks 1 32 r]
  | S j' =>
      wire_levels j' (skipn (32 * 2 ^ j) r) ++ [blocks (2 ^ j) 32 r]
  end.

(** The position of the other child of the same parent. *)
Definition sibling (pos : Z) : Z := Z.lxor pos 1.

(** ** Blake2b-256 on known inputs *)

(** The digests of the empty input, of ["abc"] and of the 300 bytes
    [0, 1, ..., 255, 0, ..., 43], which span three blocks. *)
Example sum256_empty :
  Blake2b.sum256 []
  = [x0e; x57; x51; xc0; x26; xe5; x43; xb2; xe8; xab; x2e; xb0; x60;
       x99; xda; xa1; xd1; xe5; xdf; x47; x77; x8f; x77; x87; xfa; xab;
       x45; xcd; xf1; x2f; xe3; xa8].
Proof. vm_compute. reflexivity. Qed.

Example sum256_abc :
  Blake2b.sum256 [x61; x62; x63]
  = [xbd; xdd; x81; x3c; x63; x42; x39; x72; x31; x71; xef; x3f; xee;
       x98; x57; x9b; x94; x96; x4e; x3b; xb1; xcb; x3e; x42; x72; x62;
       xc8; xc0; x68; xd5; x23; x19].
Proof. vm_compute. reflexivity. Qed.

Example sum256_three_blocks :
  Blake2b.sum256 (map (fun i => Blake2b.byte_of_Z (Z.of_nat i)) (seq 0 300))
  = [x3a; x48; x6e; x3f; xe3; xee; x41; x48; x53; x00; x02; x69; xac;
       x02; x00; x30; xae; xef; x74; x8c; xb0; x5c; xd6; x2b; xa8; x59;
       x39; xec; x29; x8e; xf2; x5c].
Proof. vm_compute. reflexivity. Qed.

(** * Properties of the embedding *)

(** ** Outcomes *)

Lemma Ok_inj {A : Type} (a b : A) : Ok a = Ok b -> a = b.
Proof. intros H. now injection H. Qed.

Lemma Some_inj {A : Type} (a b : A) : Some a = Some b -> a = b.
Proof. intros H. now injection H. Qed.

(** ** Equality tests and table lookup *)

Lemma bytes_Equal_eq (a b : list byte) : bytes_Equal a b = true <-> a = b.
Proof.
  revert b; induction a as [|x a IH]; intros [|y b]; simpl;
    split; try congruence; try discriminate.
  - intros H. apply andb_true_iff in H as [Hx Ha].
    apply Byte.byte_dec_bl in Hx. apply IH in Ha. congruence.
  - intros H. injection H as -> ->. apply andb_true_iff. split.
    + now apply Byte.byte_dec_lb.
    + now apply IH.
Qed.

Lemma bytes_Equal_refl (a : list byte) : bytes_Equal a a = true.
Proof. now apply bytes_Equal_eq. Qed.

Lemma bytes_Equal_neq (a b : list byte) : bytes_Equal a b = false <-> a <> b.
Proof.
  split.
  - intros H E. apply bytes_Equal_eq in E. congruence.
  - intros H. destruct (bytes_Equal a b) eqn:E; [|reflexivity].
    apply bytes_Equal_eq in E. contradiction.
Qed.

Lemma hashes_Equal_eq (a b : list crypto.Hash) :
  hashes_Equal a b = true <-> a = b.
Proof.
  revert b; induction a as [|x a IH]; intros [|y b]; simpl;
    split; try congruence; try discriminate.
  - intros H. apply andb_true_iff in H as [Hx Ha].
    apply bytes_Equal_eq in Hx. apply IH in Ha. congruence.
  - intros H. injection H as -> ->. apply andb_true_iff. split.
    + apply bytes_Equal_refl.
    + now apply IH.
Qed.

Lemma lookup_In (tbl : list (crypto.Hash * crypto.Hash)) (k v : crypto.Hash) :
  lookup tbl k = Some v -> In (k, v) tbl.
Proof.
  induction tbl as [|[k' v'] tbl IH]; simpl; [discriminate|].
  destruct (bytes_Equal k' k) eqn:E.
  - apply bytes_Equal_eq in E. intros [= ->]. left. now subst.
  - intros H. right. now apply IH.
Qed.

(** ** The digest algebra and Blake2b-256 *)

Lemma zero4kSectorHash_digest :
  zero4kSectorHash = crypto.Blake2B256 [zero4kSector].
Proof. vm_compute. reflexivity. Qed.

Lemma precomputes_digests :
  Forall (fun kv => snd kv = crypto.Blake2B256 [fst kv; fst kv]) precomputes.
Proof.
  unfold precomputes.
  repeat (apply Forall_cons; [vm_compute; reflexivity|]).
  apply Forall_nil.
Qed.

Lemma hashLeaf_digest (input : list byte) :
  hashLeaf input = crypto.Blake2B256 [input].
Proof.
  unfold hashLeaf. destruct (bytes_Equal zero4kSector input) eqn:E.
  - apply bytes_Equal_eq in E. subst input. apply zero4kSectorHash_digest.
  - reflexivity.
Qed.

Lemma hashLevel_digest (l r : crypto.Hash) :
  hashLevel l r = crypto.Blake2B256 [l; r].
Proof.
  unfold hashLevel. destruct (lookup precomputes l) as [v|] eqn:L;
    [|reflexivity].
  destruct (bytes_Equal l r) eqn:E; [|reflexivity].
  apply bytes_Equal_eq in E. subst r.
  apply lookup_In in L.
  pose proof precomputes_digests as F.
  rewrite Forall_forall in F. exact (F _ L).
Qed.

(** C1: the zero-content fast paths are transparent.  [hashLeaf] is
    Blake2b-256 of its input on every input (of 4096 bytes or of any other
    length), the all-zero 4096-byte block included; [hashLevel] is Blake2b-256 of [left || right] on every pair,
    the table hits included; each of the 12 table entries maps a key [k] to
    Blake2b-256 of [k || k], and the first key is the digest of 4096 zero
    bytes. *)
Theorem zero_fast_paths_transparent :
  (forall input : list byte, hashLeaf input = crypto.Blake2B256 [input]) /\
  (forall l r : crypto.Hash, hashLevel l r = crypto.Blake2B256 [l; r]) /\
  length precomputes = 12%nat /\
  Forall (fun kv => snd kv = crypto.Blake2B256 [fst kv; fst kv]) precomputes /\
  option_map fst (hd_error precomputes)
    = Some (crypto.Blake2B256 [repeat x00 4096]).
Proof.
  split; [exact hashLeaf_digest|].
  split; [exact hashLevel_digest|].
  split; [reflexivity|].
  split; [exact precomputes_digests|].
  vm_compute. reflexivity.
Qed.

(** ** Base diffing *)

Lemma DiffWith_loop_spec (m other : MerkleBase) (n : nat) :
  forall (i : Z) (out : list Z),
    0 <= i -> i + Z.of_nat n <= 256 ->
    DiffWith_loop n i m other out
    = out ++ map Z.of_nat
        (filter (fun j => negb (bytes_Equal (nth j m zeroHash)
                                            (nth j other zeroHash)))
                (seq (Z.to_nat i) n)).
Proof.
  induction n as [|n IH]; intros i out Hi Hn; simpl.
  - now rewrite app_nil_r.
  - rewrite IH by lia.
    replace (Z.to_nat (i + 1)) with (S (Z.to_nat i)) by lia.
    destruct (bytes_Equal _ _); simpl; [reflexivity|].
    rewrite <- app_assoc. simpl. unfold uint8.
    rewrite Z.mod_small by lia. now rewrite Z2Nat.id by lia.
Qed.

Lemma DiffWith_spec (a b : MerkleBase) :
  length a = 256%nat ->
  DiffWith a b = map Z.of_nat (differing a b 256).
Proof.
  intros La. unfold DiffWith, differing.
  destruct (hashes_Equal a b) eqn:E.
  - apply hashes_Equal_eq in E. subst b.
    symmetry. replace (filter _ _) with (@nil nat); [reflexivity|].
    symmetry.
    generalize (seq 0 256). intros l. induction l as [|x l IH]; simpl.
    + reflexivity.
    + now rewrite bytes_Equal_refl.
  - rewrite DiffWith_loop_spec by (rewrite ?La; lia).
    now rewrite La.
Qed.

Lemma filter_seq_sorted (f : nat -> bool) (n : nat) :
  forall s : nat,
    StronglySorted Z.lt (map Z.of_nat (filter f (seq s n))) /\
    Forall (fun z => Z.of_nat s <= z) (map Z.of_nat (filter f (seq s n))).
Proof.
  induction n as [|n IH]; intros s; simpl.
  - split; constructor.
  - destruct (IH (S s)) as [Hs Hb].
    assert (Hb' : Forall (fun z => Z.of_nat s < z)
                    (map Z.of_nat (filter f (seq (S s) n)))).
    { eapply Forall_impl; [|exact Hb]. simpl. intros; lia. }
    destruct (f s); simpl.
    + split.
      * constructor; assumption.
      * constructor; [lia|]. eapply Forall_impl; [|exact Hb']. simpl; lia.
    + split; [assumption|].
      eapply Forall_impl; [|exact Hb']. simpl; lia.
Qed.

Lemma In_differing (a b : MerkleBase) (i : Z) :
  In i (map Z.of_nat (differing a b 256)) <->
  0 <= i <= 255 /\
  nth (Z.to_nat i) a zeroHash <> nth (Z.to_nat i) b zeroHash.
Proof.
  unfold differing. rewrite in_map_iff. split.
  - intros (j & <- & Hj). apply filter_In in Hj as [Hj Hd].
    apply in_seq in Hj. rewrite Nat2Z.id.
    apply negb_true_iff, bytes_Equal_neq in Hd. split; [lia|assumption].
  - intros [Hi Hd]. exists (Z.to_nat i). split; [lia|].
    apply filter_In. split; [apply in_seq; lia|].
    now apply negb_true_iff, bytes_Equal_neq.
Qed.

Lemma differing_nil (a b : MerkleBase) :
  length a = 256%nat -> length b = 256%nat ->
  differing a b 256 = [] -> a = b.
Proof.
  intros La Lb H.
  apply (nth_ext a b zeroHash zeroHash); [congruence|].
  intros j Hj. rewrite La in Hj.
  destruct (bytes_Equal (nth j a zeroHash) (nth j b zeroHash)) eqn:E.
  - now apply bytes_Equal_eq.
  - exfalso.
    assert (Hin : In j (differing a b 256)).
    { unfold differing. apply filter_In. split; [apply in_seq; lia|].
      now rewrite E. }
    rewrite H in Hin. exact Hin.
Qed.

(** C9: [DiffWith a b] is the strictly ascending sequence of the positions
    in [0, 255] at which [a] and [b] differ; it is empty exactly when
    [a = b]; and it holds the same positions as [DiffWith b a]. *)
Theorem DiffWith_correct (a b : MerkleBase) :
  length a = 256%nat -> length b = 256%nat ->
  StronglySorted Z.lt (DiffWith a b) /\
  (forall i : Z,
      In i (DiffWith a b) <->
      0 <= i <= 255 /\
      nth (Z.to_nat i) a zeroHash <> nth (Z.to_nat i) b zeroHash) /\
  (DiffWith a b = [] <-> a = b) /\
  (forall i : Z, In i (DiffWith a b) <-> In i (DiffWith b a)).
Proof.
  intros La Lb.
  rewrite (DiffWith_spec a b La), (DiffWith_spec b a Lb).
  split; [apply (filter_seq_sorted _ 256 0)|].
  split; [apply In_differing|].
  split.
  - split.
    + intros H. apply map_eq_nil in H. now apply differing_nil.
    + intros ->. pose proof (DiffWith_spec b b Lb) as E.
      unfold DiffWith in E. rewrite (proj2 (hashes_Equal_eq b b) eq_refl) in E.
      now rewrite <- E.
  - intros i. rewrite !In_differing.
    split; intros [Hi Hd]; (split; [assumption|congruence]).
Qed.

Lemma DiffWith_correct_witness :
  let a := ZeroMerkleBase in
  let b := store (store ZeroMerkleBase 3 zero4kSectorHash) 255 zero4kSectorHash in
  DiffWith a b = [3; 255] /\
  (StronglySorted Z.lt (DiffWith a b) /\
   (forall i : Z,
       In i (DiffWith a b) <->
       0 <= i <= 255 /\
       nth (Z.to_nat i) a zeroHash <> nth (Z.to_nat i) b zeroHash) /\
   (DiffWith a b = [] <-> a = b) /\
   (forall i : Z, In i (DiffWith a b) <-> In i (DiffWith b a))).
Proof.
  intros a b. split; [vm_compute; reflexivity|].
  apply (DiffWith_correct a b); vm_compute; reflexivity.
Defined.

(** ** Building levels *)

Lemma pairs_length (n : nat) :
  forall level : list crypto.Hash,
    length level = (2 * n)%nat -> length (pairs level) = n.
Proof.
  induction n as [|n IH]; intros [|l [|r rest]] H; simpl in *;
    try reflexivity; try lia.
  f_equal. apply IH. lia.
Qed.

Lemma parents_pairs (n : nat) :
  forall level : list crypto.Hash,
    length level = (2 * n)%nat -> parents level = Ok (pairs level).
Proof.
  induction n as [|n IH]; intros [|l [|r rest]] H; simpl in *;
    try reflexivity; try lia.
  rewrite (IH rest) by lia. reflexivity.
Qed.

Lemma pairs_nth_error (j : nat) :
  forall (level : list crypto.Hash) (l r : crypto.Hash),
    nth_error level (2 * j) = Some l ->
    nth_error level (2 * j + 1) = Some r ->
    nth_error (pairs level) j = Some (hashLevel l r).
Proof.
  induction j as [|j IH]; intros level l r Hl Hr.
  - destruct level as [|a [|b rest]]; simpl in *; try discriminate.
    congruence.
  - replace (2 * S j)%nat with (S (S (2 * j))) in Hl by lia.
    replace (2 * S j + 1)%nat with (S (S (2 * j + 1))) in Hr by lia.
    destruct level as [|a [|b rest]]; simpl in *; try discriminate.
    now apply IH.
Qed.

Lemma pairs_nth_error_inv (j : nat) :
  forall (level : list crypto.Hash) (x : crypto.Hash),
    nth_error (pairs level) j = Some x ->
    exists l r : crypto.Hash,
      nth_error level (2 * j) = Some l /\
      nth_error level (2 * j + 1) = Some r /\
      x = hashLevel l r.
Proof.
  induction j as [|j IH]; intros level x H.
  - destruct level as [|a [|b rest]]; simpl in *; try discriminate.
    exists a, b. repeat split. congruence.
  - destruct level as [|a [|b rest]]; simpl in H; try discriminate.
    destruct (IH rest x H) as (l & r & Hl & Hr & ->).
    exists l, r.
    replace (2 * S j)%nat with (S (S (2 * j))) by lia.
    replace (2 * S j + 1)%nat with (S (S (2 * j + 1))) by lia.
    simpl. auto.
Qed.

Lemma pairs_app (n : nat) :
  forall a b : list crypto.Hash,
    length a = (2 * n)%nat -> pairs (a ++ b) = pairs a ++ pairs b.
Proof.
  induction n as [|n IH]; intros [|l [|r rest]] b H; simpl in *;
    try reflexivity; try lia.
  f_equal. apply IH. lia.
Qed.

Lemma iter_pairs_length (j : nat) :
  forall (k : nat) (level : list crypto.Hash),
    length level = (2 ^ (j + k))%nat ->
    length (Nat.iter j pairs level) = (2 ^ k)%nat.
Proof.
  induction j as [|j IH]; intros k level H.
  - exact H.
  - change (Nat.iter (S j) pairs level) with (pairs (Nat.iter j pairs level)).
    apply pairs_length. rewrite (IH (S k)).
    + apply Nat.pow_succ_r'.
    + rewrite H. f_equal. lia.
Qed.

Lemma iter_pairs_succ_r (j : nat) (level : list crypto.Hash) :
  Nat.iter j pairs (pairs level) = Nat.iter (S j) pairs level.
Proof.
  induction j as [|j IH]; [reflexivity|].
  change (pairs (Nat.iter j pairs (pairs level))
          = pairs (Nat.iter (S j) pairs level)).
  now rewrite IH.
Qed.

Lemma halve_up_length (k : nat) :
  forall (top : list crypto.Hash) (rest : MerkleTree),
    length (halve_up k (top :: rest)) = (k + S (length rest))%nat.
Proof.
  induction k as [|k IH]; intros top rest; simpl.
  - reflexivity.
  - rewrite IH. simpl. lia.
Qed.

Lemma halve_up_old (k : nat) :
  forall (top : list crypto.Hash) (rest : MerkleTree) (j : nat),
    nth_error (halve_up k (top :: rest)) (k + j) = nth_error (top :: rest) j.
Proof.
  induction k as [|k IH]; intros top rest j.
  - reflexivity.
  - cbn [halve_up]. replace (S k + j)%nat with (k + S j)%nat by lia.
    rewrite IH. reflexivity.
Qed.

Lemma halve_up_new (k : nat) :
  forall (top : list crypto.Hash) (rest : MerkleTree) (i : nat),
    (i <= k)%nat ->
    nth_error (halve_up k (top :: rest)) i = Some (Nat.iter (k - i) pairs top).
Proof.
  induction k as [|k IH]; intros top rest i Hi.
  - replace i with O by lia. reflexivity.
  - cbn [halve_up]. destruct (Nat.eq_dec i (S k)) as [->|Hne].
    + pose proof (halve_up_old k (pairs top) (top :: rest) 1) as E.
      replace (k + 1)%nat with (S k) in E by lia.
      rewrite E, Nat.sub_diag. reflexivity.
    + rewrite IH by lia. rewrite iter_pairs_succ_r.
      replace (S (k - i)) with (S k - i)%nat by lia. reflexivity.
Qed.

Lemma grow_halve_up (k : nat) :
  forall (fuel : nat) (top : list crypto.Hash) (rest : MerkleTree),
    length top = (2 ^ k)%nat -> (k < fuel)%nat ->
    grow fuel (top :: rest) = Ok (halve_up k (top :: rest)).
Proof.
  induction k as [|k IH]; intros [|fuel] top rest Hlen Hfuel; try lia.
  - cbn [grow halve_up]. unfold index, len. cbn [Z.ltb Z.to_nat nth_error bind].
    simpl. rewrite Hlen. reflexivity.
  - cbn [grow halve_up]. unfold index, len. simpl.
    rewrite Hlen.
    assert (Hgt : (Z.of_nat (2 ^ S k) >? 1) = true).
    { apply Z.gtb_lt.
      assert (2 ^ S k >= 2)%nat by (simpl; pose proof (Nat.pow_nonzero 2 k); lia).
      lia. }
    rewrite Hgt.
    rewrite (parents_pairs (2 ^ k)) by (rewrite Hlen; simpl; lia).
    cbn [bind]. apply IH; [|lia].
    apply pairs_length. rewrite Hlen. simpl. lia.
Qed.

(** ** Arrays and copies *)

Lemma index_nth_error {A : Type} (l : list A) (i : nat) (x : A) :
  nth_error l i = Some x -> index l (Z.of_nat i) = Ok x.
Proof.
  intros H. unfold index.
  destruct (Z.ltb_spec (Z.of_nat i) 0) as [Hneg|_]; [lia|].
  now rewrite Nat2Z.id, H.
Qed.

Lemma index_head {A : Type} (l : list A) (x : A) :
  nth_error l 0 = Some x -> index l 0 = Ok x.
Proof. exact (index_nth_error l 0 x). Qed.

Lemma store_length {A : Type} (l : list A) :
  forall (i : nat) (x : A), length (store l i x) = length l.
Proof.
  induction l as [|y l IH]; intros [|i] x; simpl; auto.
Qed.

Lemma firstn_store {A : Type} (l : list A) :
  forall (i : nat) (x : A),
    (i < length l)%nat -> firstn (S i) (store l i x) = firstn i l ++ [x].
Proof.
  induction l as [|y l IH]; intros [|i] x H; simpl in *; try lia.
  - reflexivity.
  - f_equal. apply IH. lia.
Qed.

Lemma skipn_nth_error {A : Type} (l : list A) :
  forall (i : nat) (x : A),
    nth_error l i = Some x -> skipn i l = x :: skipn (S i) l.
Proof.
  induction l as [|y l IH]; intros [|i] x H; simpl in *; try discriminate.
  - congruence.
  - now apply IH.
Qed.

Lemma copy_loop_spec (data : list crypto.Hash) (n : nat) :
  forall (i : nat) (out : list crypto.Hash),
    length data = (i + n)%nat -> length out = (i + n)%nat ->
    copy_loop n i data out = Ok (firstn i out ++ skipn i data).
Proof.
  induction n as [|n IH]; intros i out Hd Ho; cbn [copy_loop].
  - rewrite skipn_all2 by lia. rewrite firstn_all2 by lia.
    now rewrite app_nil_r.
  - destruct (nth_error data i) as [x|] eqn:E.
    2:{ apply nth_error_None in E. lia. }
    rewrite (index_nth_error _ _ _ E). cbn [bind].
    rewrite IH by (rewrite ?store_length; lia).
    rewrite firstn_store by lia.
    rewrite (skipn_nth_error _ _ _ E).
    now rewrite <- app_assoc.
Qed.

Lemma Level_nth_error (T : MerkleTree) (i : nat) (level : list crypto.Hash) :
  nth_error T i = Some level -> Level T (Z.of_nat i) = Ok level.
Proof.
  intros H. unfold Level. rewrite (index_nth_error _ _ _ H). cbn [bind].
  rewrite copy_loop_spec by (rewrite ?repeat_length; reflexivity).
  reflexivity.
Qed.

Lemma ProtocolBase_level8 (T : MerkleTree) (level : list crypto.Hash) :
  nth_error T 8 = Some level -> length level = 256%nat ->
  ProtocolBase T = Ok level.
Proof.
  intros H L. unfold ProtocolBase.
  change (Level T 8) with (Level T (Z.of_nat 8)).
  rewrite (Level_nth_error T 8 level H). cbn [bind].
  unfold len, ZeroMerkleBase. rewrite repeat_length, L, Z.eqb_refl.
  cbn [negb].
  rewrite copy_loop_spec by (rewrite ?repeat_length; simpl; lia).
  reflexivity.
Qed.

(** ** Well-formed trees *)

Lemma WellShaped_level (T : MerkleTree) (i : nat) :
  WellShaped T -> (i <= height T)%nat ->
  exists level : list crypto.Hash,
    nth_error T i = Some level /\ length level = (2 ^ i)%nat.
Proof.
  intros [Hne Hs] Hi. unfold height in Hi.
  destruct (nth_error T i) as [level|] eqn:E.
  - exists level. split; [reflexivity|]. now apply Hs.
  - apply nth_error_None in E. destruct T; [contradiction|]. simpl in *. lia.
Qed.

Lemma WellFormed_parents (T : MerkleTree) (i : nat)
    (up down : list crypto.Hash) :
  WellFormed T ->
  nth_error T i = Some up -> nth_error T (S i) = Some down ->
  up = pairs down.
Proof.
  intros [[_ Hs] Hp] Hu Hd.
  pose proof (Hs _ _ Hu) as Lu. pose proof (Hs _ _ Hd) as Ld.
  assert (Lp : length (pairs down) = (2 ^ i)%nat).
  { apply pairs_length. rewrite Ld. apply Nat.pow_succ_r'. }
  apply nth_error_ext. intros j.
  destruct (nth_error up j) as [x|] eqn:E.
  - destruct (Hp _ _ _ _ _ Hu Hd E) as (l & r & Hl & Hr & ->).
    symmetry. now apply pairs_nth_error.
  - apply nth_error_None in E. symmetry. apply nth_error_None. lia.
Qed.

Lemma WellFormed_iter (T : MerkleTree) (j : nat) :
  forall (i : nat) (up down : list crypto.Hash),
    WellFormed T ->
    nth_error T i = Some up -> nth_error T (i + j) = Some down ->
    up = Nat.iter j pairs down.
Proof.
  induction j as [|j IH]; intros i up down W Hu Hd.
  - rewrite Nat.add_0_r in Hd. simpl. congruence.
  - destruct (nth_error T (i + j)) as [mid|] eqn:E.
    2:{ apply nth_error_None in E.
        assert (nth_error T (i + S j) = None) by (apply nth_error_None; lia).
        congruence. }
    replace (i + S j)%nat with (S (i + j)) in Hd by lia.
    rewrite (IH i up mid W Hu E).
    rewrite (WellFormed_parents T (i + j) mid down W E Hd).
    apply iter_pairs_succ_r.
Qed.

Lemma halve_up_WellFormed (k : nat) (base : list crypto.Hash) :
  length base = (2 ^ k)%nat -> WellFormed (halve_up k [base]).
Proof.
  intros L.
  assert (Hlen : length (halve_up k [base]) = S k).
  { rewrite halve_up_length. simpl. lia. }
  assert (Hnth : forall i level,
             nth_error (halve_up k [base]) i = Some level ->
             (i <= k)%nat /\ level = Nat.iter (k - i) pairs base).
  { intros i level H.
    assert (Hi : (i <= k)%nat).
    { assert (i < length (halve_up k [base]))%nat
        by (apply nth_error_Some; congruence). lia. }
    split; [assumption|]. rewrite halve_up_new in H by assumption.
    congruence. }
  split; [split|].
  - intros E. rewrite E in Hlen. discriminate.
  - intros i level H. destruct (Hnth _ _ H) as [Hi ->].
    apply iter_pairs_length. rewrite L. f_equal. lia.
  - intros i j up down x Hu Hd Hx.
    destruct (Hnth _ _ Hu) as [Hi ->]. destruct (Hnth _ _ Hd) as [Hi' ->].
    replace (k - i)%nat with (S (k - S i)) in Hx by lia.
    now apply pairs_nth_error_inv.
Qed.

(** ** Powers of two *)

Lemma pos_ones_pos (p : positive) : 1 <= pos_ones p.
Proof. induction p; cbn [pos_ones]; lia. Qed.

Lemma pos_ones_one (p : positive) :
  pos_ones p = 1 <-> exists n : nat, Z.pos p = 2 ^ Z.of_nat n.
Proof.
  induction p as [p IH|p IH|]; cbn [pos_ones].
  - rewrite Pos2Z.inj_xI. split.
    + intros H. exfalso. pose proof (pos_ones_pos p). lia.
    + intros [[|n] H].
      * change (2 ^ Z.of_nat 0) with 1 in H. lia.
      * rewrite Nat2Z.inj_succ, Z.pow_succ_r in H by lia. lia.
  - rewrite Pos2Z.inj_xO, IH. split; intros [n H].
    + exists (S n). rewrite Nat2Z.inj_succ, Z.pow_succ_r by lia. lia.
    + destruct n as [|n].
      * change (2 ^ Z.of_nat 0) with 1 in H. lia.
      * exists n. rewrite Nat2Z.inj_succ, Z.pow_succ_r in H by lia. lia.
  - split; [|reflexivity]. intros _. exists O. reflexivity.
Qed.

Lemma OnesCount64_one (x : Z) :
  OnesCount64 x = 1 <-> exists n : nat, x = 2 ^ Z.of_nat n.
Proof.
  destruct x as [|p|p]; simpl.
  - split; [discriminate|]. intros [n H].
    pose proof (Z.pow_pos_nonneg 2 (Z.of_nat n)). lia.
  - apply pos_ones_one.
  - split; [discriminate|]. intros [n H].
    pose proof (Z.pow_pos_nonneg 2 (Z.of_nat n)). lia.
Qed.

Lemma pow2_nat_Z (k : nat) : Z.of_nat (2 ^ k) = 2 ^ Z.of_nat k.
Proof. rewrite Nat2Z.inj_pow. reflexivity. Qed.

Lemma newMerkleTreeFromHashedLeaves_pow2 (k : nat) (base : list crypto.Hash) :
  length base = (2 ^ k)%nat -> (k < 64)%nat ->
  newMerkleTreeFromHashedLeaves base = Ok (halve_up k [base]).
Proof.
  intros L Hk. unfold newMerkleTreeFromHashedLeaves.
  assert (E : OnesCount64 (uint64 (len base)) = 1).
  { apply OnesCount64_one. exists k. unfold uint64, len.
    rewrite L, pow2_nat_Z. apply Z.mod_small. split.
    - apply Z.pow_nonneg. lia.
    - apply Z.pow_lt_mono_r; lia. }
  rewrite E. cbn [Z.eqb Pos.eqb negb].
  apply grow_halve_up; [assumption|].
  rewrite L. pose proof (Nat.pow_gt_lin_r 2 k). lia.
Qed.

Lemma Root_halve_up (k : nat) (base : list crypto.Hash) :
  Root (halve_up k [base]) = index (Nat.iter k pairs base) 0.
Proof.
  unfold Root.
  rewrite (index_head (halve_up k [base]) (Nat.iter k pairs base)).
  - reflexivity.
  - rewrite halve_up_new by lia. now rewrite Nat.sub_0_r.
Qed.

(** ** Base extraction and regrowth *)

(** C5: for every well-formed tree of height at least 8, the tree regrown
    from the extracted base has the root of the original tree. *)
Theorem base_regrow_root (T : MerkleTree) :
  WellFormed T -> (8 <= height T)%nat ->
  exists (base : MerkleBase) (T' : MerkleTree) (root : crypto.Hash),
    ProtocolBase T = Ok base /\
    MakeTreeFromBase base = Ok T' /\
    Root T' = Ok root /\
    Root T = Ok root.
Proof.
  intros W H8.
  destruct (WellShaped_level T 8 (proj1 W) H8) as (base & Hb & Lb).
  destruct (WellShaped_level T 0 (proj1 W) ltac:(lia)) as (top & Ht & Lt).
  assert (Etop : top = Nat.iter 8 pairs base)
    by exact (WellFormed_iter T 8 0 top base W Ht Hb).
  destruct top as [|root [|? ?]]; try discriminate Lt.
  exists base, (halve_up 8 [base]), root.
  split; [now apply ProtocolBase_level8|].
  split.
  { unfold MakeTreeFromBase.
    now rewrite (newMerkleTreeFromHashedLeaves_pow2 8) by (auto; lia). }
  split.
  - rewrite Root_halve_up, <- Etop. reflexivity.
  - unfold Root. rewrite (index_head T [root] Ht). reflexivity.
Qed.

Lemma base_regrow_root_witness :
  let T := halve_up 9 [repeat zero4kSectorHash 512] in
  exists (base : MerkleBase) (T' : MerkleTree) (root : crypto.Hash),
    ProtocolBase T = Ok base /\
    MakeTreeFromBase base = Ok T' /\
    Root T' = Ok root /\
    Root T = Ok root.
Proof.
  cbv zeta. apply base_regrow_root.
  - apply halve_up_WellFormed. reflexivity.
  - unfold height. rewrite halve_up_length. simpl. lia.
Defined.

(** ** Sector proofs *)

Lemma ReadFull_app (a rest : list byte) (n : nat) :
  length a = n -> ReadFull (a ++ rest) n = (rest, Ok a).
Proof.
  intros L. unfold ReadFull.
  destruct (Nat.ltb_spec (length (a ++ rest)) n) as [H|_].
  - rewrite length_app in H. lia.
  - rewrite skipn_app, firstn_app, L, Nat.sub_diag.
    rewrite skipn_all2, firstn_all2 by lia.
    simpl. now rewrite app_nil_r.
Qed.

Lemma copy_same_length (dst src : list byte) :
  length dst = length src -> copy dst src = src.
Proof.
  intros L. unfold copy. rewrite L, Nat.min_id.
  rewrite firstn_all, skipn_all2 by lia. apply app_nil_r.
Qed.

Lemma digests_ok_nth (T : MerkleTree) (i j : nat)
    (level : list crypto.Hash) (h : crypto.Hash) :
  digests_ok T = true ->
  nth_error T i = Some level -> nth_error level j = Some h ->
  length h = 32%nat.
Proof.
  intros D Hl Hh. unfold digests_ok in D.
  rewrite forallb_forall in D.
  pose proof (D _ (nth_error_In _ _ Hl)) as D'.
  rewrite forallb_forall in D'.
  apply Nat.eqb_eq. exact (D' _ (nth_error_In _ _ Hh)).
Qed.

Lemma index_Z {A : Type} (l : list A) (i : Z) (x : A) :
  0 <= i -> nth_error l (Z.to_nat i) = Some x -> index l i = Ok x.
Proof.
  intros Hi H. rewrite <- (Z2Nat.id i Hi). now apply index_nth_error.
Qed.

(** The walk of [MakeSectorProof] from level [n] up and the walk of
    [VerifySectorProof] over the bytes it wrote meet at the root. *)
Lemma sector_proof_walk (T : MerkleTree) :
  WellFormed T -> digests_ok T = true ->
  forall (n : nat) (pos : Z) (level : list crypto.Hash)
         (cur : crypto.Hash) (buf : list byte),
    (n <= 8)%nat -> 0 <= pos < 2 ^ Z.of_nat n ->
    nth_error T n = Some level ->
    nth_error level (Z.to_nat pos) = Some cur ->
    exists (sibs : list byte) (root : crypto.Hash),
      MakeSectorProof_loop n T pos buf = Ok (buf ++ sibs) /\
      length sibs = (32 * n)%nat /\
      nth_error T 0 = Some [root] /\
      forall rest : list byte,
        VerifySectorProof_loop n (sibs ++ rest) pos cur = Some root.
Proof.
  intros W D. induction n as [|n IH]; intros pos level cur buf Hn Hpos Hl Hc.
  - change (2 ^ Z.of_nat 0) with 1 in Hpos.
    replace pos with 0 in * by lia.
    pose proof (proj2 (proj1 W) _ _ Hl) as L.
    destruct level as [|x [|? ?]]; try discriminate L.
    simpl in Hc. injection Hc as ->.
    exists [], cur. cbn [MakeSectorProof_loop VerifySectorProof_loop].
    rewrite app_nil_r. auto.
  - pose proof (proj2 (proj1 W) _ _ Hl) as L.
    rewrite Nat2Z.inj_succ, Z.pow_succ_r in Hpos by lia.
    assert (Hlen : Z.of_nat (length level) = 2 * 2 ^ Z.of_nat n).
    { rewrite L, pow2_nat_Z, Nat2Z.inj_succ, Z.pow_succ_r by lia.
      reflexivity. }
    assert (H256 : 2 * 2 ^ Z.of_nat n <= 256).
    { change 256 with (2 * 2 ^ 7). apply Z.mul_le_mono_nonneg_l; [lia|].
      apply Z.pow_le_mono_r; lia. }
    pose proof (Z.div_mod pos 2 ltac:(lia)) as Hdm.
    pose proof (Z.mod_pos_bound pos 2 ltac:(lia)) as Hmb.
    assert (Hup : exists up, nth_error T n = Some up).
    { destruct (nth_error T n) as [up|] eqn:E; [eauto|].
      apply nth_error_None in E.
      assert (n < length T)%nat; [|lia].
      assert (S n < length T)%nat by (apply nth_error_Some; congruence).
      lia. }
    destruct Hup as [up Hu].
    pose proof (WellFormed_parents T n up level W Hu Hl) as Eup.
    set (j := Z.to_nat (pos / 2)).
    assert (Hsib : exists sib parent,
               (if pos mod 2 =? 0 then index level (uint8 (pos + 1))
                else index level (uint8 (pos - 1))) = Ok sib /\
               nth_error up j = Some parent /\
               parent = (if pos mod 2 =? 0 then hashLevel cur sib
                         else hashLevel sib cur) /\
               length sib = 32%nat).
    { destruct (Z.eqb_spec (pos mod 2) 0) as [Hev|Hodd].
      - assert (Hj : Z.to_nat pos = (2 * j)%nat) by (unfold j; lia).
        destruct (nth_error level (2 * j + 1)) as [sib|] eqn:Es.
        2:{ apply nth_error_None in Es. unfold j in Es. lia. }
        exists sib, (hashLevel cur sib). split; [|split; [|split]].
        + unfold uint8. rewrite Z.mod_small by lia.
          apply index_Z; [lia|].
          replace (Z.to_nat (pos + 1)) with (2 * j + 1)%nat
            by (unfold j; lia).
          exact Es.
        + rewrite Eup. apply pairs_nth_error; [|exact Es].
          now rewrite <- Hj.
        + reflexivity.
        + exact (digests_ok_nth T (S n) _ level sib D Hl Es).
      - assert (Hj : Z.to_nat pos = (2 * j + 1)%nat) by (unfold j; lia).
        destruct (nth_error level (2 * j)) as [sib|] eqn:Es.
        2:{ apply nth_error_None in Es. unfold j in Es. lia. }
        exists sib, (hashLevel sib cur). split; [|split; [|split]].
        + unfold uint8. rewrite Z.mod_small by lia.
          apply index_Z; [lia|].
          replace (Z.to_nat (pos - 1)) with (2 * j)%nat by (unfold j; lia).
          exact Es.
        + rewrite Eup. apply pairs_nth_error; [exact Es|].
          now rewrite <- Hj.
        + reflexivity.
        + exact (digests_ok_nth T (S n) _ level sib D Hl Es). }
    destruct Hsib as (sib & parent & Hsib & Hparent & Eparent & Lsib).
    destruct (IH (pos / 2) up parent (buf ++ crypto.Bytes sib)
                ltac:(lia) ltac:(lia) Hu Hparent)
      as (sibs & root & Hmk & Ls & Hroot & Hver).
    exists (sib ++ sibs), root. split; [|split; [|split]].
    + cbn [MakeSectorProof_loop].
      rewrite (index_nth_error T (S n) level Hl). cbn [bind].
      rewrite Hsib. cbn [bind]. rewrite Hmk.
      unfold crypto.Bytes. now rewrite <- app_assoc.
    + rewrite length_app, Lsib, Ls. lia.
    + exact Hroot.
    + intros rest. cbn [VerifySectorProof_loop].
      rewrite <- app_assoc.
      rewrite (ReadFull_app sib (sibs ++ rest) crypto.HashLen Lsib).
      rewrite <- Eparent. apply Hver.
Qed.

(** C2: sector-proof completeness.  For a well-formed tree of height at
    least 8 whose level-8 entry at position [p] is the hash of the sector,
    the proof made for [p] verifies against the root of the tree. *)
Theorem sector_proof_complete (SectorLen : Z) (S : Sector) (p : Z)
    (T : MerkleTree) :
  WellFormed T -> (8 <= height T)%nat -> digests_ok T = true ->
  0 <= p <= 255 ->
  (level <- index T 8 ;; index level p) = HashSector SectorLen S ->
  exists (root : crypto.Hash) (proof : MerkleProof),
    Root T = Ok root /\
    MakeSectorProof T p = Ok proof /\
    VerifySectorProof SectorLen S p root proof = Ok true.
Proof.
  intros W H8 D Hp Hs.
  destruct (WellShaped_level T 8 (proj1 W) H8) as (level & Hl & Ll).
  destruct (nth_error level (Z.to_nat p)) as [h|] eqn:Eh.
  2:{ apply nth_error_None in Eh. rewrite Ll in Eh. simpl in Eh. lia. }
  change 8 with (Z.of_nat 8) in Hs.
  rewrite (index_nth_error T 8 level Hl) in Hs. cbn [bind] in Hs.
  rewrite (index_Z level p h ltac:(lia) Eh) in Hs.
  destruct (sector_proof_walk T W D 8 p level h []
              ltac:(lia) ltac:(simpl; lia) Hl Eh)
    as (sibs & root & Hmk & Ls & Hroot & Hver).
  exists root, sibs. split; [|split].
  - unfold Root. rewrite (index_head T [root] Hroot). reflexivity.
  - unfold MakeSectorProof, SubsectorProofLevel. rewrite Hmk. cbn [bind app].
    rewrite copy_same_length; [reflexivity|].
    rewrite repeat_length, Ls. reflexivity.
  - unfold VerifySectorProof, MerkleTreeHeight. rewrite <- Hs. cbn [bind].
    pose proof (Hver []) as Hv. rewrite app_nil_r in Hv. rewrite Hv.
    now rewrite bytes_Equal_refl.
Qed.

Lemma sector_proof_complete_witness :
  let T := halve_up 8 [repeat EmptyBlobBaseHash 256] in
  exists (root : crypto.Hash) (proof : MerkleProof),
    Root T = Ok root /\
    MakeSectorProof T 77 = Ok proof /\
    VerifySectorProof 65536 (repeat x00 (16 * 4096)) 77 root proof = Ok true.
Proof.
  cbv zeta. apply sector_proof_complete.
  - apply halve_up_WellFormed. reflexivity.
  - unfold height. rewrite halve_up_length. simpl. lia.
  - vm_compute. reflexivity.
  - lia.
  - vm_compute. reflexivity.
Defined.

(** ** The tree wire format *)

Lemma byte_to_Z_to_byte (z : Z) : byte_to_Z (Z_to_byte z) = z mod 256.
Proof.
  unfold byte_to_Z, Z_to_byte, uint8.
  pose proof (Z.mod_pos_bound z 256 ltac:(lia)) as B.
  destruct (Byte.of_N (Z.to_N (z mod 256))) as [b|] eqn:E.
  - apply Byte.to_of_N in E. rewrite E. lia.
  - apply Byte.of_N_None_iff in E. lia.
Qed.

Lemma write_hashes_spec (hs : list crypto.Hash) :
  forall w : Writer, write_hashes hs w = (w ++ concat hs, None).
Proof.
  induction hs as [|h hs IH]; intros w; cbn [write_hashes concat].
  - now rewrite app_nil_r.
  - unfold Write, crypto.Bytes. rewrite IH. now rewrite <- app_assoc.
Qed.

Lemma firstn_succ_nth_error {A : Type} (l : list A) :
  forall (n : nat) (x : A),
    nth_error l n = Some x -> firstn (S n) l = firstn n l ++ [x].
Proof.
  induction l as [|y l IH]; intros [|n] x H; simpl in *; try discriminate.
  - congruence.
  - f_equal. now apply IH.
Qed.

Lemma Encode_levels_spec (T : MerkleTree) (n : nat) :
  forall w : Writer,
    (n <= length T)%nat ->
    Encode_levels n T w
    = Ok (w ++ concat (concat (rev (firstn n T))), None).
Proof.
  induction n as [|n IH]; intros w Hn; cbn [Encode_levels].
  - simpl. now rewrite app_nil_r.
  - destruct (nth_error T n) as [level|] eqn:E.
    2:{ apply nth_error_None in E. lia. }
    rewrite (index_nth_error T n level E). cbn [bind].
    rewrite write_hashes_spec, IH by lia.
    rewrite (firstn_succ_nth_error T n level E), rev_app_distr.
    cbn [rev app concat]. now rewrite concat_app, <- app_assoc.
Qed.

Lemma digests_length (hs : list crypto.Hash) :
  forallb (fun h : crypto.Hash => (length h =? 32)%nat) hs = true ->
  length (concat hs) = (32 * length hs)%nat.
Proof.
  induction hs as [|h hs IH]; cbn [forallb concat length]; intros H.
  - reflexivity.
  - apply andb_true_iff in H as [Hh Hs]. apply Nat.eqb_eq in Hh.
    rewrite length_app, Hh, (IH Hs). lia.
Qed.

Lemma read_hashes_spec (hs : list crypto.Hash) :
  forall (rest : list byte) (level : list crypto.Hash),
    forallb (fun h : crypto.Hash => (length h =? 32)%nat) hs = true ->
    read_hashes (length hs) (concat hs ++ rest) level
    = (rest, Ok (level ++ hs)).
Proof.
  induction hs as [|h hs IH]; intros rest level H;
    cbn [length read_hashes concat forallb] in *.
  - now rewrite app_nil_r.
  - apply andb_true_iff in H as [Hh Hs]. apply Nat.eqb_eq in Hh.
    unfold Hash_Decode. rewrite <- app_assoc.
    rewrite (ReadFull_app h (concat hs ++ rest) crypto.HashLen Hh).
    rewrite IH by assumption. now rewrite <- app_assoc.
Qed.

Lemma digests_ok_level (T : MerkleTree) (i : nat)
    (level : list crypto.Hash) :
  digests_ok T = true -> nth_error T i = Some level ->
  forallb (fun h : crypto.Hash => (length h =? 32)%nat) level = true.
Proof.
  intros D H. unfold digests_ok in D. rewrite forallb_forall in D.
  exact (D _ (nth_error_In _ _ H)).
Qed.

Lemma skipn_nth_error_cons {A : Type} (l : list A) (n : nat) (x : A) :
  nth_error l n = Some x -> x :: skipn (S n) l = skipn n l.
Proof. intros H. symmetry. now apply skipn_nth_error. Qed.

Lemma Decode_levels_spec (T : MerkleTree) :
  WellShaped T -> digests_ok T = true ->
  forall (j fuel : nat) (rest : list byte),
    (j < length T)%nat -> (j < fuel)%nat ->
    Decode_levels fuel (2 ^ Z.of_nat j)
      (concat (concat (rev (firstn (S j) T))) ++ rest) (skipn (S j) T)
    = (rest, Ok T).
Proof.
  intros [_ Hs] D. induction j as [|j IH]; intros [|fuel] rest Hj Hf;
    try lia; cbn [Decode_levels].
  - destruct T as [|top T']; [simpl in Hj; lia|].
    pose proof (Hs O top eq_refl) as L.
    cbn [firstn rev app concat skipn]. rewrite app_nil_r.
    change (Z.to_nat (2 ^ Z.of_nat 0)) with 1%nat.
    change 1%nat with (2 ^ 0)%nat at 1. rewrite <- L.
    rewrite read_hashes_spec by exact (digests_ok_level _ O top D eq_refl).
    reflexivity.
  - destruct (nth_error T (S j)) as [level|] eqn:E.
    2:{ apply nth_error_None in E. lia. }
    pose proof (Hs _ _ E) as L.
    rewrite (firstn_succ_nth_error T (S j) level E), rev_app_distr.
    cbn [rev app concat]. rewrite concat_app, <- app_assoc.
    rewrite <- pow2_nat_Z, Nat2Z.id, <- L.
    rewrite read_hashes_spec by exact (digests_ok_level _ _ level D E).
    cbn [app]. rewrite L, pow2_nat_Z.
    rewrite (skipn_nth_error_cons T (S j) level E).
    rewrite Nat2Z.inj_succ, Z.pow_succ_r by lia.
    destruct (Z.eqb_spec (2 * 2 ^ Z.of_nat j) 1) as [H1|_].
    { pose proof (Z.pow_pos_nonneg 2 (Z.of_nat j)). lia. }
    replace (2 * 2 ^ Z.of_nat j / 2) with (2 ^ Z.of_nat j)
      by (rewrite Z.mul_comm, Z.div_mul; lia).
    apply IH; lia.
Qed.

Lemma levels_count (T : MerkleTree) :
  WellShaped T ->
  forall n : nat,
    (n <= length T)%nat ->
    length (concat (rev (firstn n T))) = (2 ^ n - 1)%nat.
Proof.
  intros [_ Hs]. induction n as [|n IH]; intros Hn.
  - reflexivity.
  - destruct (nth_error T n) as [level|] eqn:E.
    2:{ apply nth_error_None in E. lia. }
    rewrite (firstn_succ_nth_error T n level E), rev_app_distr.
    cbn [rev app concat]. rewrite length_app, (Hs _ _ E), IH by lia.
    rewrite Nat.pow_succ_r'. pose proof (Nat.pow_nonzero 2 n). lia.
Qed.

Lemma digests_ok_all (T : MerkleTree) :
  digests_ok T = true ->
  forallb (fun h : crypto.Hash => (length h =? 32)%nat) (concat (rev T))
  = true.
Proof.
  intros D. apply forallb_forall. intros h Hin.
  apply in_concat in Hin as (level & Hl & Hh).
  apply in_rev in Hl. unfold digests_ok in D.
  rewrite forallb_forall in D. pose proof (D _ Hl) as D'.
  rewrite forallb_forall in D'. exact (D' _ Hh).
Qed.

(** C6: the tree wire round trip.  For a well-shaped tree of height
    [H <= 32], [Encode] writes the height byte followed by the
    [2^(H+1) - 1] digests of 32 bytes, leaf level first and the root
    last, and [Decode] of these bytes returns the same levels. *)
Theorem tree_wire_round_trip (T : MerkleTree) :
  WellShaped T -> (height T <= 32)%nat -> digests_ok T = true ->
  exists bytes : list byte,
    MerkleTree_Encode T [] = Ok (bytes, None) /\
    bytes = Z_to_byte (Z.of_nat (height T)) :: concat (concat (rev T)) /\
    length (concat (rev T)) = (2 ^ (height T + 1) - 1)%nat /\
    length bytes = (1 + 32 * (2 ^ (height T + 1) - 1))%nat /\
    MerkleTree_Decode bytes = ([], Ok T).
Proof.
  intros W H32 D.
  assert (Hne : (0 < length T)%nat).
  { destruct T; [destruct W as [Hne _]; contradiction|simpl; lia]. }
  assert (HS : S (height T) = length T) by (unfold height; lia).
  assert (Hcount : length (concat (rev T)) = (2 ^ (height T + 1) - 1)%nat).
  { rewrite <- (firstn_all T) at 1. rewrite (levels_count T W) by lia.
    now rewrite Nat.add_1_r, HS. }
  exists (Z_to_byte (Z.of_nat (height T)) :: concat (concat (rev T))).
  split; [|split; [reflexivity|split; [exact Hcount|split]]].
  - unfold MerkleTree_Encode, Height, len.
    destruct (Z.eqb_spec (Z.of_nat (length T)) 0) as [H0|_]; [lia|].
    cbn [bind]. unfold Write. cbn [app].
    rewrite Encode_levels_spec by lia. rewrite firstn_all.
    replace (Z.of_nat (length T) - 1) with (Z.of_nat (height T))
      by (unfold height; lia).
    unfold uint8 at 1. rewrite Z.mod_small by lia. reflexivity.
  - cbn [length]. rewrite (digests_length _ (digests_ok_all T D)), Hcount.
    reflexivity.
  - unfold MerkleTree_Decode.
    change (Z_to_byte (Z.of_nat (height T)) :: concat (concat (rev T)))
      with ([Z_to_byte (Z.of_nat (height T))] ++ concat (concat (rev T))).
    rewrite (ReadFull_app [Z_to_byte (Z.of_nat (height T))] _ 1%nat eq_refl).
    cbn [hd].
    rewrite byte_to_Z_to_byte, Z.mod_small by lia.
    destruct (Z.gtb_spec (Z.of_nat (height T)) 32) as [Hgt|_]; [lia|].
    unfold uint8. rewrite Z.mod_small by lia.
    rewrite Z.shiftl_1_l.
    pose proof (Decode_levels_spec T W D (height T) 33 []
                  ltac:(lia) ltac:(lia)) as E.
    rewrite HS, firstn_all, skipn_all, app_nil_r in E. exact E.
Qed.

Lemma tree_wire_round_trip_witness :
  let T := halve_up 3 [repeat zero4kSectorHash 8] in
  exists bytes : list byte,
    MerkleTree_Encode T [] = Ok (bytes, None) /\
    bytes = Z_to_byte (Z.of_nat (height T)) :: concat (concat (rev T)) /\
    length (concat (rev T)) = (2 ^ (height T + 1) - 1)%nat /\
    length bytes = (1 + 32 * (2 ^ (height T + 1) - 1))%nat /\
    MerkleTree_Decode bytes = ([], Ok T).
Proof.
  cbv zeta. apply tree_wire_round_trip.
  - apply (proj1 (halve_up_WellFormed 3 (repeat zero4kSectorHash 8) eq_refl)).
  - unfold height. rewrite halve_up_length. simpl. lia.
  - vm_compute. reflexivity.
Defined.

(** ** Decoding does not check hashes *)

(** C10: [MerkleTree.Decode] checks the height byte and reads the declared
    digests, nothing more.  The stream below declares height 1 and carries
    three digests; [Decode] succeeds, the decoded root is the third digest
    verbatim, and it is not [hashLevel] of the two level-1 entries. *)
Theorem MerkleTree_Decode_unchecked :
  let l := zero4kSectorHash in
  let r := zero4kSectorHash in
  let top := zeroHash in
  let stream := x01 :: l ++ r ++ top in
  let T := [[top]; [l; r]] in
  MerkleTree_Decode stream = ([], Ok T) /\
  Root T = Ok top /\
  top <> hashLevel l r /\
  ~ ParentsHashed T.
Proof.
  cbv zeta.
  assert (Hne : zeroHash <> hashLevel zero4kSectorHash zero4kSectorHash).
  { apply bytes_Equal_neq. vm_compute. reflexivity. }
  split; [vm_compute; reflexivity|].
  split; [reflexivity|].
  split; [exact Hne|].
  intros P.
  destruct (P O O [zeroHash] [zero4kSectorHash; zero4kSectorHash] zeroHash
              eq_refl eq_refl eq_refl) as (l & r & Hl & Hr & E).
  simpl in Hl, Hr. injection Hl as <-. injection Hr as <-.
  exact (Hne E).
Qed.

(** ** The base wire format *)

Lemma skipn_store {A : Type} (l : list A) :
  forall (i m : nat) (x : A),
    (i < m)%nat -> skipn m (store l i x) = skipn m l.
Proof.
  induction l as [|y l IH]; intros [|i] [|m] x H; simpl; try lia;
    try reflexivity.
  apply IH. lia.
Qed.

Lemma Read_full_buffer (r : Reader) (hash : list byte) :
  (length hash <= length r)%nat -> (0 < length hash)%nat ->
  Read r hash
  = (skipn (length hash) r, firstn (length hash) r,
     Z.of_nat (length hash), None).
Proof.
  intros H H0. unfold Read. destruct r as [|b r]; [simpl in H; lia|].
  rewrite Nat.min_l by assumption.
  now rewrite skipn_all, app_nil_r.
Qed.

(** With [32 * n] bytes left, [n] iterations of the loop of
    [MerkleBase.Decode] store the next [n] blocks of 32 bytes. *)
Lemma MerkleBase_Decode_loop_full (n : nat) :
  forall (i : nat) (r : Reader) (hash : crypto.Hash) (res : MerkleBase),
    length hash = 32%nat -> (32 * n <= length r)%nat ->
    (i + n <= length res)%nat ->
    MerkleBase_Decode_loop n i r hash res
    = (skipn (32 * n) r,
       Ok (firstn i res ++ blocks n 32 r ++ skipn (i + n) res)).
Proof.
  induction n as [|n IH]; intros i r hash res Lh Lr Li;
    cbn [MerkleBase_Decode_loop blocks].
  - rewrite Nat.add_0_r, Nat.mul_0_r. cbn [app skipn].
    now rewrite firstn_skipn.
  - rewrite Read_full_buffer by lia. rewrite Lh.
    rewrite IH. 2:{ rewrite length_firstn. lia. }
    2:{ rewrite length_skipn. lia. }
    2:{ rewrite store_length. lia. }
    rewrite firstn_store by lia. rewrite skipn_store by lia.
    rewrite skipn_skipn. rewrite <- app_assoc. cbn [app].
    replace (32 * n + 32)%nat with (32 * S n)%nat by lia.
    replace (S i + n)%nat with (i + S n)%nat by lia.
    reflexivity.
Qed.

(** One short read drains the stream without an error; the next read is
    the one that reports [io.EOF]. *)
Lemma MerkleBase_Decode_loop_short (n : nat) :
  forall (i : nat) (r : Reader) (hash : crypto.Hash) (res : MerkleBase),
    length hash = 32%nat -> (length r + 31 < 32 * n)%nat ->
    exists r' : Reader,
      MerkleBase_Decode_loop n i r hash res = (r', Err EOF).
Proof.
  induction n as [|n IH]; intros i r hash res Lh Lr; [lia|].
  cbn [MerkleBase_Decode_loop]. unfold Read.
  destruct r as [|b r]; [eexists; reflexivity|].
  cbv zeta. set (s := b :: r) in *.
  assert (0 < length s)%nat by (unfold s; simpl; lia).
  apply IH.
  - rewrite length_app, length_firstn, length_skipn. lia.
  - rewrite length_skipn. lia.
Qed.

Lemma blocks_concat (hs : list crypto.Hash) :
  forall rest : list byte,
    forallb (fun h : crypto.Hash => (length h =? 32)%nat) hs = true ->
    blocks (length hs) 32 (concat hs ++ rest) = hs.
Proof.
  induction hs as [|h hs IH]; intros rest H;
    cbn [length blocks concat forallb] in *.
  - reflexivity.
  - apply andb_true_iff in H as [Hh Hs]. apply Nat.eqb_eq in Hh.
    rewrite <- app_assoc.
    rewrite firstn_app, skipn_app, Hh, Nat.sub_diag.
    rewrite firstn_all2, skipn_all2 by lia.
    cbn [firstn skipn app]. rewrite app_nil_r.
    now rewrite IH by assumption.
Qed.

(** A stream of at least 8192 bytes decodes to its first 256 blocks of 32
    bytes, in order. *)
Lemma MerkleBase_Decode_full (r : Reader) :
  (32 * 256 <= length r)%nat ->
  MerkleBase_Decode r = (skipn (32 * 256) r, Ok (blocks 256 32 r)).
Proof.
  intros L. unfold MerkleBase_Decode, ZeroMerkleBase.
  rewrite repeat_length.
  rewrite MerkleBase_Decode_loop_full.
  - cbn [firstn app Nat.add].
    rewrite (skipn_all2 (repeat zeroHash 256))
      by (rewrite repeat_length; lia).
    now rewrite app_nil_r.
  - unfold zeroHash. now rewrite repeat_length.
  - exact L.
  - rewrite repeat_length. lia.
Qed.

(** A stream of at most 8160 bytes is rejected. *)
Lemma MerkleBase_Decode_short (r : Reader) :
  (length r <= 32 * 255)%nat ->
  exists r' : Reader, MerkleBase_Decode r = (r', Err EOF).
Proof.
  intros L. unfold MerkleBase_Decode, ZeroMerkleBase.
  rewrite repeat_length.
  apply MerkleBase_Decode_loop_short.
  - unfold zeroHash. now rewrite repeat_length.
  - lia.
Qed.

(** [Encode] followed by [Decode] reproduces a base. *)
Lemma MerkleBase_round_trip (m : MerkleBase) :
  length m = 256%nat ->
  forallb (fun h : crypto.Hash => (length h =? 32)%nat) m = true ->
  exists bytes : list byte,
    MerkleBase_Encode m [] = (bytes, None) /\
    length bytes = (32 * 256)%nat /\
    MerkleBase_Decode bytes = ([], Ok m).
Proof.
  intros L D. exists (concat m).
  assert (Lc : length (concat m) = (32 * 256)%nat).
  { rewrite (digests_length m D), L. reflexivity. }
  split; [|split].
  - unfold MerkleBase_Encode. now rewrite write_hashes_spec.
  - exact Lc.
  - rewrite MerkleBase_Decode_full by lia.
    rewrite skipn_all2 by lia.
    pose proof (blocks_concat m [] D) as E.
    rewrite app_nil_r, L in E. now rewrite E.
Qed.

(** Any stream of more than 8160 bytes passes the 256 reads: the last
    read may be short, and a short read is not an error. *)
Lemma MerkleBase_Decode_loop_accepts (n : nat) :
  forall (i : nat) (r : Reader) (hash : crypto.Hash) (res : MerkleBase),
    length hash = 32%nat -> (32 * n <= length r + 31)%nat ->
    exists (r' : Reader) (m : MerkleBase),
      MerkleBase_Decode_loop n i r hash res = (r', Ok m).
Proof.
  induction n as [|n IH]; intros i r hash res Lh Lr.
  - eexists. eexists. reflexivity.
  - cbn [MerkleBase_Decode_loop]. unfold Read.
    destruct r as [|b r]; [simpl in Lr; lia|].
    cbv zeta. set (s := b :: r) in *.
    apply IH.
    + rewrite length_app, length_firstn, length_skipn. lia.
    + rewrite length_skipn. lia.
Qed.

Lemma MerkleBase_Decode_error_iff (r : Reader) :
  (exists (r' : Reader) (e : error), MerkleBase_Decode r = (r', Err e))
  <-> (length r <= 32 * 255)%nat.
Proof.
  split.
  - intros (r' & e & H).
    destruct (Nat.le_gt_cases (length r) (32 * 255)) as [Hle|Hgt];
      [assumption|].
    destruct (MerkleBase_Decode_loop_accepts 256 0 r zeroHash ZeroMerkleBase
                eq_refl ltac:(lia)) as (r1 & m & E).
    unfold MerkleBase_Decode, ZeroMerkleBase in H.
    rewrite repeat_length in H. unfold ZeroMerkleBase in E.
    rewrite E in H. discriminate.
  - intros H. destruct (MerkleBase_Decode_short r H) as [r' E].
    exists r', EOF. exact E.
Qed.

(** C7: [MerkleBase.Decode] on a truncated stream.  The stream below
    supplies 8161 bytes, fewer than the 8192 of a base, yet [Decode]
    returns no error: its last [Read] is short, and the last digest of the
    base is the one byte read followed by the 31 bytes that the buffer
    still held from the digest before. *)
Theorem MerkleBase_Decode_accepts_truncated :
  let stream := repeat xaa (32 * 255) ++ [xbb] in
  length stream = (32 * 255 + 1)%nat /\
  exists m : MerkleBase,
    MerkleBase_Decode stream = ([], Ok m) /\
    length m = 256%nat /\
    nth_error m 255 = Some (xbb :: repeat xaa 31).
Proof.
  cbv zeta. split; [reflexivity|].
  eexists. split; [vm_compute; reflexivity|].
  split; vm_compute; reflexivity.
Qed.

(** ** Building a tree from content *)

Lemma read_leaves_ok (size n : nat) :
  forall (r : Reader) (base : list crypto.Hash),
    (n * size <= length r)%nat ->
    read_leaves n r size base
    = (skipn (n * size) r, Ok (base ++ map hashLeaf (blocks n size r))).
Proof.
  induction n as [|n IH]; intros r base L; cbn [read_leaves blocks map].
  - now rewrite app_nil_r.
  - unfold ReadFull.
    destruct (Nat.ltb_spec (length r) size) as [H|_]; [lia|].
    rewrite IH by (rewrite length_skipn; lia).
    rewrite skipn_skipn, <- app_assoc.
    replace (n * size + size)%nat with (S n * size)%nat by lia.
    reflexivity.
Qed.

Lemma read_leaves_err (size n : nat) :
  forall (r : Reader) (base : list crypto.Hash),
    (length r < n * size)%nat ->
    exists (r' : Reader) (e : error),
      read_leaves n r size base = (r', Err e).
Proof.
  induction n as [|n IH]; intros r base L; [lia|].
  cbn [read_leaves]. unfold ReadFull.
  destruct (Nat.ltb_spec (length r) size) as [H|H].
  - eexists. eexists. reflexivity.
  - apply IH. rewrite length_skipn. lia.
Qed.

Lemma blocks_length (size n : nat) :
  forall r : list byte, length (blocks n size r) = n.
Proof. induction n as [|n IH]; intros r; simpl; auto. Qed.

Lemma pow2_to_nat (k : nat) : Z.to_nat (2 ^ Z.of_nat k) = (2 ^ k)%nat.
Proof. now rewrite <- pow2_nat_Z, Nat2Z.id. Qed.

Lemma pow2_le_MaxUint32 (k : nat) :
  2 ^ Z.of_nat k <= MaxUint32 <-> (k <= 31)%nat.
Proof.
  unfold MaxUint32. split; intros H.
  - destruct (Nat.le_gt_cases k 31) as [|Hgt]; [assumption|].
    assert (2 ^ 32 <= 2 ^ Z.of_nat k) by (apply Z.pow_le_mono_r; lia).
    change (2 ^ 32) with 4294967296 in *. lia.
  - assert (2 ^ Z.of_nat k <= 2 ^ 31) by (apply Z.pow_le_mono_r; lia).
    change (2 ^ 31) with 2147483648 in *. lia.
Qed.

Lemma uint64_small (x : Z) : 0 <= x <= MaxUint32 -> uint64 x = x.
Proof.
  unfold uint64, MaxUint32. intros H. apply Z.mod_small.
  change (2 ^ 64) with 18446744073709551616. lia.
Qed.

(** A power-of-two leaf count within [MaxUint32] and enough bytes: the
    tree is the bottom-up halving of the hashed blocks. *)
Lemma NewMerkleTreeFromReader_ok (k size : nat) (r : Reader) :
  (k <= 31)%nat -> (2 ^ k * size <= length r)%nat ->
  NewMerkleTreeFromReader r (2 ^ Z.of_nat k) (Z.of_nat size)
  = (skipn (2 ^ k * size) r,
     Ok (halve_up k [map hashLeaf (blocks (2 ^ k) size r)])).
Proof.
  intros Hk L. unfold NewMerkleTreeFromReader.
  pose proof (proj2 (pow2_le_MaxUint32 k) Hk) as Hmax.
  pose proof (Z.pow_pos_nonneg 2 (Z.of_nat k) ltac:(lia) ltac:(lia)) as Hpos.
  destruct (Z.gtb_spec (2 ^ Z.of_nat k) MaxUint32) as [Hgt|_]; [lia|].
  rewrite uint64_small by lia.
  rewrite (proj2 (OnesCount64_one _) (ex_intro _ k eq_refl)).
  cbn [Z.eqb Pos.eqb negb].
  destruct (Z.ltb_spec (Z.of_nat size) 0) as [Hneg|_]; [lia|].
  rewrite pow2_to_nat, Nat2Z.id.
  rewrite read_leaves_ok by assumption. cbn [app].
  rewrite (newMerkleTreeFromHashedLeaves_pow2 k)
    by (rewrite ?length_map, ?blocks_length; lia || reflexivity).
  reflexivity.
Qed.

(** C8: validation and construction in [NewMerkleTreeFromReader], for
    [leafSize] a size (a negative one panics in [make]).  An error is returned
    exactly when [leafCount] is not a power of two, or exceeds the 32-bit
    unsigned range, or the stream holds fewer than [leafCount * leafSize]
    bytes.  Otherwise exactly [leafCount] blocks of [leafSize] bytes are
    consumed, each hashed by [hashLeaf], and the tree returned is the
    bottom-up halving of these leaves by [hashLevel]: it is well formed,
    its last level holds the hashed blocks, its first level a single
    digest, and its height is the binary logarithm of [leafCount]. *)
Theorem NewMerkleTreeFromReader_validation (r : Reader)
    (leafCount leafSize : Z) :
  0 <= leafSize ->
  ((exists (r' : Reader) (e : error),
       NewMerkleTreeFromReader r leafCount leafSize = (r', Err e))
   <-> (~ (exists k : nat, leafCount = 2 ^ Z.of_nat k)
        \/ MaxUint32 < leafCount
        \/ len r < leafCount * leafSize)) /\
  (forall k : nat,
      leafCount = 2 ^ Z.of_nat k -> leafCount <= MaxUint32 ->
      leafCount * leafSize <= len r ->
      let leaves :=
        map hashLeaf (blocks (Z.to_nat leafCount) (Z.to_nat leafSize) r) in
      exists T : MerkleTree,
        NewMerkleTreeFromReader r leafCount leafSize
        = (skipn (Z.to_nat (leafCount * leafSize)) r, Ok T) /\
        T = halve_up k [leaves] /\
        WellFormed T /\
        nth_error T k = Some leaves /\
        Height T = Ok (Z.of_nat k)).
Proof.
  intros Hsize.
  assert (Hok : forall k : nat,
             leafCount = 2 ^ Z.of_nat k -> leafCount <= MaxUint32 ->
             leafCount * leafSize <= len r ->
             NewMerkleTreeFromReader r leafCount leafSize
             = (skipn (Z.to_nat (leafCount * leafSize)) r,
                Ok (halve_up k [map hashLeaf
                   (blocks (Z.to_nat leafCount) (Z.to_nat leafSize) r)]))).
  { intros k -> Hmax Hlen.
    apply pow2_le_MaxUint32 in Hmax.
    rewrite <- (Z2Nat.id leafSize Hsize) at 1.
    rewrite (NewMerkleTreeFromReader_ok k (Z.to_nat leafSize) r Hmax).
    - rewrite pow2_to_nat. do 2 f_equal.
      rewrite Z2Nat.inj_mul, pow2_to_nat by lia. reflexivity.
    - unfold len in Hlen. rewrite <- pow2_nat_Z in Hlen. nia. }
  split.
  - split.
    + intros (r' & e & E).
      destruct (Z.le_gt_cases leafCount MaxUint32) as [Hmax|Hgt];
        [|right; left; lia].
      destruct (Z.le_gt_cases (leafCount * leafSize) (len r)) as [Hlen|Hlt];
        [|right; right; lia].
      left. intros [k Hk].
      rewrite (Hok k Hk Hmax Hlen) in E. discriminate.
    + intros H. unfold NewMerkleTreeFromReader.
      destruct (Z.gtb_spec leafCount MaxUint32) as [Hgt|Hmax];
        [eexists; eexists; reflexivity|].
      destruct (Z.eqb_spec (OnesCount64 (uint64 leafCount)) 1) as [H1|H1];
        cbn [negb]; [|eexists; eexists; reflexivity].
      destruct (Z.ltb_spec leafSize 0) as [Hneg|_]; [lia|].
      apply OnesCount64_one in H1 as [n Hn].
      destruct (Z.le_gt_cases 0 leafCount) as [Hnonneg|Hnegative].
      * rewrite uint64_small in Hn by lia.
        destruct H as [H|[H|H]]; [destruct H; now exists n|lia|].
        destruct (read_leaves_err (Z.to_nat leafSize) (Z.to_nat leafCount)
                    r []) as (r' & e & E).
        { unfold len in H. nia. }
        rewrite E. eexists. eexists. reflexivity.
      * replace (Z.to_nat leafCount) with O by lia.
        cbn [read_leaves]. eexists. eexists. reflexivity.
  - intros k Hk Hmax Hlen leaves.
    exists (halve_up k [leaves]).
    assert (Lleaves : length leaves = (2 ^ k)%nat).
    { unfold leaves. rewrite length_map, blocks_length, Hk.
      apply pow2_to_nat. }
    split; [exact (Hok k Hk Hmax Hlen)|].
    split; [reflexivity|].
    split; [now apply halve_up_WellFormed|].
    split.
    + pose proof (halve_up_old k leaves [] 0) as E.
      rewrite Nat.add_0_r in E. exact E.
    + unfold Height, len. rewrite halve_up_length. cbn [length].
      destruct (Z.eqb_spec (Z.of_nat (k + 1)) 0) as [H0|_]; [lia|].
      f_equal. lia.
Qed.

Lemma NewMerkleTreeFromReader_validation_witness :
  let r := [x01; x02; x03; x04; x05] in
  ((exists (r' : Reader) (e : error),
       NewMerkleTreeFromReader r 4 1 = (r', Err e))
   <-> (~ (exists k : nat, 4 = 2 ^ Z.of_nat k)
        \/ MaxUint32 < 4
        \/ len r < 4 * 1)) /\
  (forall k : nat,
      4 = 2 ^ Z.of_nat k -> 4 <= MaxUint32 ->
      4 * 1 <= len r ->
      let leaves :=
        map hashLeaf (blocks (Z.to_nat 4) (Z.to_nat 1) r) in
      exists T : MerkleTree,
        NewMerkleTreeFromReader r 4 1
        = (skipn (Z.to_nat (4 * 1)) r, Ok T) /\
        T = halve_up k [leaves] /\
        WellFormed T /\
        nth_error T k = Some leaves /\
        Height T = Ok (Z.of_nat k)).
Proof.
  cbv zeta. apply (NewMerkleTreeFromReader_validation
                     [x01; x02; x03; x04; x05] 4 1). lia.
Defined.

(** ** All-zero content *)

Lemma pairs_repeat (d : crypto.Hash) (m : nat) :
  pairs (repeat d (2 * m)) = repeat (hashLevel d d) m.
Proof.
  induction m as [|m IH]; [reflexivity|].
  replace (2 * S m)%nat with (S (S (2 * m))) by lia.
  cbn [repeat pairs]. now rewrite IH.
Qed.

Lemma iter_pairs_repeat (j : nat) :
  forall (d : crypto.Hash) (m : nat),
    Nat.iter j pairs (repeat d (m * 2 ^ j))
    = repeat (Nat.iter j (fun x => hashLevel x x) d) m.
Proof.
  induction j as [|j IH]; intros d m.
  - rewrite Nat.pow_0_r, Nat.mul_1_r. reflexivity.
  - change (Nat.iter (S j) pairs ?l) with (pairs (Nat.iter j pairs l)).
    replace (m * 2 ^ S j)%nat with (2 * m * 2 ^ j)%nat
      by (rewrite Nat.pow_succ_r'; lia).
    rewrite IH, pairs_repeat. reflexivity.
Qed.

Lemma blocks_repeat (x : byte) (size n : nat) :
  forall m : nat,
    (n * size <= m)%nat ->
    blocks n size (repeat x m) = repeat (repeat x size) n.
Proof.
  induction n as [|n IH]; intros m L; [reflexivity|].
  replace m with (size + (m - size))%nat by lia.
  rewrite repeat_app. cbn [blocks repeat].
  rewrite firstn_app, skipn_app, repeat_length, Nat.sub_diag.
  rewrite firstn_all2, skipn_all2 by (rewrite repeat_length; lia).
  cbn [firstn skipn app]. rewrite app_nil_r.
  rewrite IH by lia. reflexivity.
Qed.

Lemma hashLeaf_zero : hashLeaf (repeat x00 4096) = zero4kSectorHash.
Proof. vm_compute. reflexivity. Qed.

(** The tree built from at least [2^k] all-zero subsectors. *)
Lemma zero_tree (k m : nat) :
  (k <= 31)%nat -> (2 ^ k * 4096 <= m)%nat ->
  NewMerkleTreeFromReader (repeat x00 m) (2 ^ Z.of_nat k) 4096
  = (skipn (2 ^ k * 4096) (repeat x00 m),
     Ok (halve_up k [repeat zero4kSectorHash (2 ^ k)])).
Proof.
  intros Hk L.
  change 4096 with (Z.of_nat 4096).
  rewrite NewMerkleTreeFromReader_ok by (rewrite ?repeat_length; lia).
  rewrite blocks_repeat by lia.
  rewrite map_repeat, hashLeaf_zero. reflexivity.
Qed.

Lemma zero_tree_level (k i : nat) :
  (i <= k)%nat ->
  nth_error (halve_up k [repeat zero4kSectorHash (2 ^ k)]) i
  = Some (repeat (zero_root (k - i)) (2 ^ i)).
Proof.
  intros Hi. rewrite halve_up_new by assumption. f_equal.
  replace (2 ^ k)%nat with (2 ^ i * 2 ^ (k - i))%nat
    by (rewrite <- Nat.pow_add_r; f_equal; lia).
  apply iter_pairs_repeat.
Qed.

Lemma zero_tree_root (k : nat) :
  Root (halve_up k [repeat zero4kSectorHash (2 ^ k)]) = Ok (zero_root k).
Proof.
  unfold Root.
  rewrite (index_head _ _ (zero_tree_level k 0 ltac:(lia))).
  rewrite Nat.sub_0_r. reflexivity.
Qed.

(** [HashSector] of an all-zero sector of [2^k] subsectors. *)
Lemma HashSector_zero (k : nat) :
  (k <= 31)%nat ->
  HashSector (2 ^ Z.of_nat k * 4096) (repeat x00 (2 ^ k * 4096))
  = Ok (zero_root k).
Proof.
  intros Hk. unfold HashSector, SubsectorCountSector, SubsectorSize.
  rewrite Z.div_mul by lia.
  rewrite zero_tree by lia. apply zero_tree_root.
Qed.

Lemma zero_root_constants :
  zero_root 0 = zero4kSectorHash /\
  zero_root 4 = EmptyBlobBaseHash /\
  zero_root 12 = EmptyBlobMerkleRoot /\
  zero_root 8 <> EmptyBlobBaseHash /\
  zero_root 9 <> zero_root 8.
Proof.
  repeat split; try (vm_compute; reflexivity);
    apply bytes_Equal_neq; vm_compute; reflexivity.
Qed.

(** C4, as the spec states it: an all-zero sector of 256 subsectors would
    hash to [EmptyBlobBaseHash].  It hashes to the digest of height 8,
    while [EmptyBlobBaseHash] is the digest of height 4. *)
Lemma zero_sector_256_counterexample :
  HashSector (4096 * 256) (repeat x00 (2 ^ 8 * 4096))
  <> Ok EmptyBlobBaseHash.
Proof.
  change (4096 * 256) with (2 ^ Z.of_nat 8 * 4096).
  rewrite HashSector_zero by lia.
  intros E. apply Ok_inj in E.
  exact (proj1 (proj2 (proj2 (proj2 zero_root_constants))) E).
Qed.

(** C4, amended: [hashLeaf] of the all-zero 4096-byte block is
    [zero4kSectorHash]; [HashSector] of an all-zero sector of 16 subsectors
    (65536 bytes) is [EmptyBlobBaseHash]; the tree built by [Merkleize]
    from an all-zero blob of 4096 subsectors (16 MiB) has the root
    [EmptyBlobMerkleRoot]. *)
Theorem zero_content_constants :
  hashLeaf (repeat x00 4096) = zero4kSectorHash /\
  HashSector 65536 (repeat x00 (2 ^ 4 * 4096)) = Ok EmptyBlobBaseHash /\
  exists T : MerkleTree,
    Merkleize 16777216 (repeat x00 (2 ^ 12 * 4096)) = ([], Ok T) /\
    Root T = Ok EmptyBlobMerkleRoot.
Proof.
  destruct zero_root_constants as (_ & E4 & E12 & _).
  split; [exact hashLeaf_zero|]. split.
  - change 65536 with (2 ^ Z.of_nat 4 * 4096).
    rewrite HashSector_zero by lia. now rewrite E4.
  - exists (halve_up 12 [repeat zero4kSectorHash (2 ^ 12)]). split.
    + unfold Merkleize, SubsectorCountBlob, SubsectorSize.
      change (16777216 / 4096) with (2 ^ Z.of_nat 12).
      rewrite zero_tree by lia.
      rewrite skipn_all2 by (rewrite repeat_length; lia). reflexivity.
    + rewrite zero_tree_root. now rewrite E12.
Qed.

(** ** Sector hashes and the base *)

Lemma blocks_app (size a b : nat) :
  forall r : list byte,
    blocks (a + b) size r
    = blocks a size r ++ blocks b size (skipn (a * size) r).
Proof.
  induction a as [|a IH]; intros r; [reflexivity|].
  cbn [Nat.add blocks app]. rewrite IH, skipn_skipn.
  replace (a * size + size)%nat with (S a * size)%nat by lia.
  reflexivity.
Qed.

Lemma blocks_firstn (size n : nat) :
  forall (m : nat) (r : list byte),
    (n * size <= m)%nat -> blocks n size (firstn m r) = blocks n size r.
Proof.
  induction n as [|n IH]; intros m r L; [reflexivity|].
  cbn [blocks]. rewrite firstn_firstn, Nat.min_l by lia.
  rewrite skipn_firstn_comm, IH by lia. reflexivity.
Qed.

Lemma iter_pairs_length_mul (j : nat) :
  forall (m : nat) (level : list crypto.Hash),
    length level = (m * 2 ^ j)%nat -> length (Nat.iter j pairs level) = m.
Proof.
  induction j as [|j IH]; intros m level L.
  - rewrite Nat.pow_0_r, Nat.mul_1_r in L. exact L.
  - change (Nat.iter (S j) pairs level) with (pairs (Nat.iter j pairs level)).
    apply pairs_length. apply IH. rewrite L, Nat.pow_succ_r'. lia.
Qed.

Lemma iter_pairs_app (j : nat) :
  forall (m : nat) (a b : list crypto.Hash),
    length a = (m * 2 ^ j)%nat ->
    Nat.iter j pairs (a ++ b) = Nat.iter j pairs a ++ Nat.iter j pairs b.
Proof.
  induction j as [|j IH]; intros m a b L; [reflexivity|].
  change (Nat.iter (S j) pairs ?l) with (pairs (Nat.iter j pairs l)).
  assert (L2 : length a = (2 * m * 2 ^ j)%nat)
    by (rewrite L, Nat.pow_succ_r'; lia).
  rewrite (IH (2 * m)%nat a b L2).
  apply (pairs_app m). now apply iter_pairs_length_mul.
Qed.

(** [HashSector] of the [p]-th sector is the single digest left after
    [k] halvings of that sector's hashed subsectors. *)
Lemma HashSector_sector_at (k p : nat) (B : list byte) :
  (k <= 31)%nat -> ((p + 1) * (2 ^ k * 4096) <= length B)%nat ->
  HashSector (2 ^ Z.of_nat k * 4096)
    (sector_at (2 ^ Z.of_nat k * 4096) B (Z.of_nat p))
  = index (Nat.iter k pairs
             (map hashLeaf
                (blocks (2 ^ k) 4096 (skipn (p * (2 ^ k * 4096)) B)))) 0.
Proof.
  intros Hk L. unfold HashSector, SubsectorCountSector, SubsectorSize.
  rewrite Z.div_mul by lia.
  assert (Esl : Z.to_nat (2 ^ Z.of_nat k * 4096) = (2 ^ k * 4096)%nat).
  { rewrite Z2Nat.inj_mul, pow2_to_nat by lia. reflexivity. }
  assert (Ep : Z.to_nat (Z.of_nat p * (2 ^ Z.of_nat k * 4096))
               = (p * (2 ^ k * 4096))%nat).
  { rewrite Z2Nat.inj_mul, Nat2Z.id, Esl by lia. reflexivity. }
  unfold sector_at. rewrite Esl, Ep.
  change 4096 with (Z.of_nat 4096).
  rewrite NewMerkleTreeFromReader_ok
    by (rewrite ?length_firstn, ?length_skipn; lia).
  rewrite blocks_firstn by lia.
  apply Root_halve_up.
Qed.

(** The base of a blob of [256 * 2^k] subsectors: entry [p] is the single
    digest left after [k] halvings of the hashed subsectors of sector
    [p]. *)
Lemma Merkleize_base_entry (k p : nat) (B : list byte) :
  (k <= 23)%nat -> (p < 256)%nat ->
  length B = (256 * (2 ^ k * 4096))%nat ->
  exists (T : MerkleTree) (base : MerkleBase),
    Merkleize (256 * (2 ^ Z.of_nat k * 4096)) B = ([], Ok T) /\
    ProtocolBase T = Ok base /\
    nth_error base p
    = nth_error (Nat.iter k pairs
                   (map hashLeaf
                      (blocks (2 ^ k) 4096 (skipn (p * (2 ^ k * 4096)) B))))
                0.
Proof.
  intros Hk Hp L.
  set (leaves := map hashLeaf (blocks (2 ^ (k + 8)) 4096 B)).
  assert (E28 : (2 ^ (k + 8))%nat = (256 * 2 ^ k)%nat).
  { rewrite Nat.pow_add_r. change (2 ^ 8)%nat with 256%nat. lia. }
  assert (Ll : length leaves = (2 ^ (k + 8))%nat).
  { unfold leaves. now rewrite length_map, blocks_length. }
  exists (halve_up (k + 8) [leaves]), (Nat.iter k pairs leaves).
  assert (H8 : nth_error (halve_up (k + 8) [leaves]) 8
               = Some (Nat.iter k pairs leaves)).
  { rewrite halve_up_new by lia. do 2 f_equal. lia. }
  split; [|split].
  - unfold Merkleize, SubsectorCountBlob, SubsectorSize.
    replace (256 * (2 ^ Z.of_nat k * 4096) / 4096)
      with (2 ^ Z.of_nat (k + 8)).
    2:{ rewrite Z.mul_assoc, Z.div_mul by lia.
        rewrite Nat2Z.inj_add, Z.pow_add_r by lia.
        change (2 ^ Z.of_nat 8) with 256. lia. }
    change 4096 with (Z.of_nat 4096).
    rewrite NewMerkleTreeFromReader_ok by lia.
    rewrite skipn_all2 by lia. reflexivity.
  - apply ProtocolBase_level8; [exact H8|].
    apply iter_pairs_length_mul. rewrite Ll, E28. reflexivity.
  - unfold leaves.
    replace (2 ^ (k + 8))%nat
      with (p * 2 ^ k + (2 ^ k + (255 - p) * 2 ^ k))%nat
      by (rewrite E28; nia).
    rewrite !blocks_app, !map_app.
    rewrite (iter_pairs_app k p)
      by (now rewrite length_map, blocks_length).
    rewrite (iter_pairs_app k 1)
      by (rewrite length_map, blocks_length; lia).
    rewrite nth_error_app2
      by (rewrite (iter_pairs_length_mul k p);
          [lia|now rewrite length_map, blocks_length]).
    rewrite (iter_pairs_length_mul k p)
      by (now rewrite length_map, blocks_length).
    rewrite Nat.sub_diag.
    rewrite nth_error_app1.
    + now rewrite Nat.mul_assoc.
    + rewrite (iter_pairs_length_mul k 1); [lia|].
      rewrite length_map, blocks_length. lia.
Qed.

(** C3, amended: when the blob is 256 sectors long and a sector is a
    power-of-two number [2^k] of subsectors (with [k <= 23], so that the
    blob has at most [2^31] subsectors), the hash of the [p]-th sector of
    a blob is entry [p] of the base of the blob, for every [p] in
    [0, 255]. *)
Theorem sector_hash_is_base_entry (k : nat) (Size SectorLen : Z)
    (B : list byte) (p : Z) :
  (k <= 23)%nat ->
  SectorLen = 2 ^ Z.of_nat k * SubsectorSize ->
  Size = 256 * SectorLen ->
  len B = Size ->
  0 <= p <= 255 ->
  exists (T : MerkleTree) (base : MerkleBase) (h : crypto.Hash),
    Merkleize Size B = ([], Ok T) /\
    ProtocolBase T = Ok base /\
    HashSector SectorLen (sector_at SectorLen B p) = Ok h /\
    nth_error base (Z.to_nat p) = Some h.
Proof.
  unfold SubsectorSize. intros Hk -> -> L Hp.
  assert (Ln : length B = (256 * (2 ^ k * 4096))%nat).
  { unfold len in L. rewrite <- pow2_nat_Z in L. lia. }
  destruct (Merkleize_base_entry k (Z.to_nat p) B Hk ltac:(lia) Ln)
    as (T & base & HT & Hb & He).
  pose proof (HashSector_sector_at k (Z.to_nat p) B ltac:(lia)
                ltac:(rewrite Ln; nia)) as Hs.
  rewrite Z2Nat.id in Hs by lia.
  set (top := Nat.iter k pairs
                (map hashLeaf (blocks (2 ^ k) 4096
                   (skipn (Z.to_nat p * (2 ^ k * 4096)) B)))) in *.
  assert (Lt : length top = 1%nat).
  { apply iter_pairs_length_mul.
    rewrite length_map, blocks_length. lia. }
  destruct top as [|h [|? ?]]; try discriminate Lt.
  exists T, base, h. repeat split; assumption.
Qed.

Lemma sector_hash_is_base_entry_witness :
  let B := repeat x00 (256 * (2 ^ 4 * 4096)) in
  exists (T : MerkleTree) (base : MerkleBase) (h : crypto.Hash),
    Merkleize 16777216 B = ([], Ok T) /\
    ProtocolBase T = Ok base /\
    HashSector 65536 (sector_at 65536 B 200) = Ok h /\
    nth_error base (Z.to_nat 200) = Some h.
Proof.
  cbv zeta.
  apply (sector_hash_is_base_entry 4 16777216 65536
           (repeat x00 (256 * (2 ^ 4 * 4096))) 200).
  - lia.
  - reflexivity.
  - reflexivity.
  - unfold len. rewrite repeat_length, !Nat2Z.inj_mul, pow2_nat_Z.
    reflexivity.
  - lia.
Defined.

Lemma pow2_mul_le (a b : nat) :
  (a <= b)%nat -> (2 ^ a * 4096 <= 2 ^ b * 4096)%nat.
Proof.
  intros H. apply Nat.mul_le_mono_r. apply Nat.pow_le_mono_r; lia.
Qed.

(** C3, as the spec states it: the only precondition is that a sector is
    256 subsectors long.  With such sectors and a blob of 512 sectors, an
    entry of the base covers two sectors: on the all-zero blob the hash of
    sector 0 is the all-zero digest of height 8 and entry 0 of the base is
    the one of height 9. *)
Lemma sector_hash_base_counterexample :
  let SectorLen := SubsectorSize * 256 in
  let Size := 512 * SectorLen in
  let B := repeat x00 (2 ^ 17 * 4096) in
  len B = Size /\
  exists (T : MerkleTree) (base : MerkleBase) (h : crypto.Hash),
    Merkleize Size B = ([], Ok T) /\
    ProtocolBase T = Ok base /\
    HashSector SectorLen (sector_at SectorLen B 0) = Ok h /\
    nth_error base (Z.to_nat 0) <> Some h.
Proof.
  cbv zeta. split.
  { unfold len. rewrite repeat_length, Nat2Z.inj_mul, pow2_nat_Z.
    reflexivity. }
  exists (halve_up 17 [repeat zero4kSectorHash (2 ^ 17)]),
         (repeat (zero_root 9) (2 ^ 8)), (zero_root 8).
  split; [|split; [|split]].
  - unfold Merkleize.
    change (SubsectorCountBlob (512 * (SubsectorSize * 256)))
      with (2 ^ Z.of_nat 17).
    unfold SubsectorSize. rewrite zero_tree by lia.
    rewrite skipn_all2 by (rewrite repeat_length; lia). reflexivity.
  - apply ProtocolBase_level8.
    + exact (zero_tree_level 17 8 ltac:(lia)).
    + rewrite repeat_length. reflexivity.
  - pose proof (HashSector_sector_at 8 0 (repeat x00 (2 ^ 17 * 4096))
                  ltac:(lia)) as Hs.
    change (HashSector (SubsectorSize * 256)
              (sector_at (SubsectorSize * 256)
                 (repeat x00 (2 ^ 17 * 4096)) 0))
      with (HashSector (2 ^ Z.of_nat 8 * 4096)
              (sector_at (2 ^ Z.of_nat 8 * 4096)
                 (repeat x00 (2 ^ 17 * 4096)) (Z.of_nat 0))).
    rewrite Hs.
    2:{ rewrite repeat_length, Nat.add_0_l, Nat.mul_1_l.
        apply pow2_mul_le. lia. }
    rewrite Nat.mul_0_l, skipn_O.
    rewrite blocks_repeat by (apply pow2_mul_le; lia).
    rewrite map_repeat, hashLeaf_zero.
    rewrite <- (Nat.mul_1_l (2 ^ 8)), iter_pairs_repeat.
    reflexivity.
  - change (nth_error (repeat (zero_root 9) (2 ^ 8)) (Z.to_nat 0))
      with (Some (zero_root 9)).
    intros E. apply Some_inj in E.
    exact (proj2 (proj2 (proj2 (proj2 zero_root_constants))) E).
Qed.

(** ** The loops of the model terminate within their fuel *)

Lemma parents_outcome (n : nat) :
  forall level : list crypto.Hash,
    (length level <= n)%nat ->
    parents level = Panic \/
    exists up : list crypto.Hash,
      parents level = Ok up /\ length level = (2 * length up)%nat.
Proof.
  induction n as [|n IH]; intros [|l [|r rest]] L; simpl in *; try lia;
    try (right; exists []; split; reflexivity); try (left; reflexivity).
  destruct (IH rest ltac:(lia)) as [E|(up & E & Lu)]; rewrite E; simpl.
  - left. reflexivity.
  - right. eexists. split; [reflexivity|]. simpl. lia.
Qed.

Lemma grow_not_OutOfFuel (fuel : nat) :
  forall (top : list crypto.Hash) (rest : MerkleTree),
    (length top < fuel)%nat -> grow fuel (top :: rest) <> OutOfFuel.
Proof.
  induction fuel as [|fuel IH]; intros top rest L; [lia|].
  cbn [grow]. unfold index. cbn [Z.ltb Z.to_nat nth_error bind]. simpl.
  destruct (Z.gtb_spec (len top) 1) as [Hgt|_]; [|discriminate].
  destruct (parents_outcome (length top) top (le_n _)) as [E|(up & E & Lu)];
    rewrite E; cbn [bind]; [discriminate|].
  apply IH. unfold len in Hgt. lia.
Qed.

Lemma newMerkleTreeFromHashedLeaves_not_OutOfFuel (base : list crypto.Hash) :
  newMerkleTreeFromHashedLeaves base <> OutOfFuel.
Proof.
  unfold newMerkleTreeFromHashedLeaves.
  destruct (negb _); [discriminate|].
  apply grow_not_OutOfFuel. lia.
Qed.

Lemma read_hashes_outcome (n : nat) :
  forall (r : Reader) (level : list crypto.Hash),
    (exists r' l, read_hashes n r level = (r', Ok l)) \/
    (exists r' e, read_hashes n r level = (r', Err e)).
Proof.
  induction n as [|n IH]; intros r level; cbn [read_hashes].
  - left. eauto.
  - unfold Hash_Decode, ReadFull.
    destruct (Nat.ltb (length r) crypto.HashLen).
    + right. eauto.
    + apply IH.
Qed.

Lemma Decode_levels_not_OutOfFuel (j : nat) :
  forall (fuel : nat) (r : Reader) (tree : MerkleTree),
    (j < fuel)%nat ->
    snd (Decode_levels fuel (2 ^ Z.of_nat j) r tree) <> OutOfFuel.
Proof.
  induction j as [|j IH]; intros [|fuel] r tree Hf; try lia;
    cbn [Decode_levels].
  - destruct (read_hashes_outcome (Z.to_nat (2 ^ Z.of_nat 0)) r [])
      as [(r' & l & E)|(r' & e & E)]; rewrite E; simpl; discriminate.
  - destruct (read_hashes_outcome (Z.to_nat (2 ^ Z.of_nat (S j))) r [])
      as [(r' & l & E)|(r' & e & E)]; rewrite E; [|simpl; discriminate].
    rewrite Nat2Z.inj_succ, Z.pow_succ_r by lia.
    destruct (Z.eqb_spec (2 * 2 ^ Z.of_nat j) 1) as [H1|_].
    { simpl. discriminate. }
    replace (2 * 2 ^ Z.of_nat j / 2) with (2 ^ Z.of_nat j)
      by (rewrite Z.mul_comm, Z.div_mul; lia).
    apply IH. lia.
Qed.

Lemma byte_to_Z_bounds (b : byte) : 0 <= byte_to_Z b <= 255.
Proof.
  unfold byte_to_Z. pose proof (Byte.to_N_bounded b). lia.
Qed.

Lemma MerkleTree_Decode_not_OutOfFuel (r : Reader) :
  snd (MerkleTree_Decode r) <> OutOfFuel.
Proof.
  unfold MerkleTree_Decode, ReadFull.
  destruct (Nat.ltb (length r) 1); [simpl; discriminate|].
  set (height := byte_to_Z (hd x00 (firstn 1 r))).
  pose proof (byte_to_Z_bounds (hd x00 (firstn 1 r))) as B.
  fold height in B.
  destruct (Z.gtb_spec height 32) as [Hgt|Hle]; [simpl; discriminate|].
  unfold uint8. rewrite Z.mod_small by lia. rewrite Z.shiftl_1_l.
  rewrite <- (Z2Nat.id height) by lia.
  apply Decode_levels_not_OutOfFuel. lia.
Qed.

(** * Further properties of the code *)

(** ** Digests have 32 bytes *)

Lemma sum256_length (msg : list byte) : length (Blake2b.sum256 msg) = 32%nat.
Proof. unfold Blake2b.sum256. rewrite !length_app. reflexivity. Qed.

Lemma hashLeaf_length (input : list byte) : length (hashLeaf input) = 32%nat.
Proof.
  unfold hashLeaf. destruct (bytes_Equal _ _); [reflexivity|].
  apply sum256_length.
Qed.

Lemma precomputes_lengths :
  forallb (fun kv : crypto.Hash * crypto.Hash =>
             (length (snd kv) =? 32)%nat) precomputes = true.
Proof. vm_compute. reflexivity. Qed.

Lemma hashLevel_length (l r : crypto.Hash) : length (hashLevel l r) = 32%nat.
Proof.
  unfold hashLevel. destruct (lookup precomputes l) as [v|] eqn:L.
  - destruct (bytes_Equal l r); [|apply sum256_length].
    apply lookup_In in L. pose proof precomputes_lengths as F.
    rewrite forallb_forall in F. apply Nat.eqb_eq. exact (F _ L).
  - apply sum256_length.
Qed.

Lemma pairs_digests (level : list crypto.Hash) (n : nat) :
  (length level <= n)%nat ->
  forallb (fun h : crypto.Hash => (length h =? 32)%nat) (pairs level) = true.
Proof.
  revert level. induction n as [|n IH]; intros [|l [|r rest]] L;
    simpl in *; try reflexivity; try lia.
  rewrite hashLevel_length. simpl. apply IH. lia.
Qed.

Lemma halve_up_digests (k : nat) :
  forall tree : MerkleTree,
    digests_ok tree = true -> digests_ok (halve_up k tree) = true.
Proof.
  induction k as [|k IH]; intros [|top rest] D; simpl; try assumption.
  apply IH. unfold digests_ok in *. cbn [forallb].
  rewrite (pairs_digests top (length top) (le_n _)). exact D.
Qed.

Lemma map_hashLeaf_digests (bs : list (list byte)) :
  forallb (fun h : crypto.Hash => (length h =? 32)%nat) (map hashLeaf bs)
  = true.
Proof.
  induction bs as [|b bs IH]; simpl; [reflexivity|].
  now rewrite hashLeaf_length, IH.
Qed.

(** ** The tree as a recursive Merkle hash *)

Lemma iter_pairs_single (m : nat) :
  forall leaves : list crypto.Hash,
    length leaves = (2 ^ m)%nat ->
    Nat.iter m pairs leaves = [merkle_root m leaves].
Proof.
  induction m as [|m IH]; intros leaves L.
  - destruct leaves as [|x [|? ?]]; try discriminate L. reflexivity.
  - rewrite Nat.pow_succ_r' in L.
    pose proof (Nat.pow_nonzero 2 m ltac:(lia)) as Hnz.
    rewrite <- (firstn_skipn (2 ^ m) leaves) at 1.
    change (Nat.iter (S m) pairs ?l) with (pairs (Nat.iter m pairs l)).
    rewrite (iter_pairs_app m 1) by (rewrite length_firstn; lia).
    rewrite !IH by (rewrite ?length_firstn, ?length_skipn; lia).
    reflexivity.
Qed.

Lemma iter_pairs_group (m j n : nat) (leaves : list crypto.Hash) :
  length leaves = (n * 2 ^ m)%nat -> (j < n)%nat ->
  nth_error (Nat.iter m pairs leaves) j
  = Some (merkle_root m (group (2 ^ m) j leaves)).
Proof.
  intros L Hj. unfold group.
  assert (Hle : (j * 2 ^ m + 2 ^ m <= n * 2 ^ m)%nat) by nia.
  rewrite <- (firstn_skipn (j * 2 ^ m) leaves) at 1.
  rewrite <- (firstn_skipn (2 ^ m) (skipn (j * 2 ^ m) leaves)) at 1.
  rewrite (iter_pairs_app m j) by (rewrite length_firstn; lia).
  rewrite (iter_pairs_app m 1)
    by (rewrite length_firstn, length_skipn; lia).
  rewrite nth_error_app2;
    rewrite (iter_pairs_length_mul m j)
      by (rewrite length_firstn; lia); [|lia].
  rewrite Nat.sub_diag.
  rewrite iter_pairs_single by (rewrite length_firstn, length_skipn; lia).
  reflexivity.
Qed.

(** X1: in the tree built from [2^k] hashed leaves, every node is the
    recursive Merkle hash of the leaves below it: node [j] of level [i]
    is [merkle_root] of the [j]-th group of [2^(k-i)] leaves, and the root
    is [merkle_root] of all leaves. *)
Theorem tree_nodes_are_merkle_roots (k : nat) (leaves : list crypto.Hash) :
  length leaves = (2 ^ k)%nat -> (k < 64)%nat ->
  exists T : MerkleTree,
    newMerkleTreeFromHashedLeaves leaves = Ok T /\
    Root T = Ok (merkle_root k leaves) /\
    forall i j : nat,
      (i <= k)%nat -> (j < 2 ^ i)%nat ->
      exists level : list crypto.Hash,
        nth_error T i = Some level /\
        nth_error level j
        = Some (merkle_root (k - i) (group (2 ^ (k - i)) j leaves)).
Proof.
  intros L Hk. exists (halve_up k [leaves]).
  split; [now apply newMerkleTreeFromHashedLeaves_pow2|]. split.
  - rewrite Root_halve_up, iter_pairs_single by assumption. reflexivity.
  - intros i j Hi Hj. exists (Nat.iter (k - i) pairs leaves).
    split; [now apply halve_up_new|].
    apply (iter_pairs_group (k - i) j (2 ^ i)); [|assumption].
    rewrite L, <- Nat.pow_add_r. f_equal. lia.
Qed.

Lemma tree_nodes_are_merkle_roots_witness :
  let leaves := [zeroHash; zero4kSectorHash; EmptyBlobBaseHash; zeroHash] in
  exists T : MerkleTree,
    newMerkleTreeFromHashedLeaves leaves = Ok T /\
    Root T = Ok (merkle_root 2 leaves) /\
    forall i j : nat,
      (i <= 2)%nat -> (j < 2 ^ i)%nat ->
      exists level : list crypto.Hash,
        nth_error T i = Some level /\
        nth_error level j
        = Some (merkle_root (2 - i) (group (2 ^ (2 - i)) j leaves)).
Proof.
  cbv zeta. apply tree_nodes_are_merkle_roots; [reflexivity|lia].
Defined.

(** ** Trees from hashed leaves and from a base *)

Lemma pow2_Z_nat (n : nat) (k : nat) :
  Z.of_nat n = 2 ^ Z.of_nat k -> n = (2 ^ k)%nat.
Proof. intros H. rewrite <- pow2_nat_Z in H. lia. Qed.

(** X2: [newMerkleTreeFromHashedLeaves] returns an error exactly when the
    number of leaves is not a power of two (zero included); otherwise it
    returns a well-formed tree whose last level is the given leaves and
    whose height is the binary logarithm of their number. *)
Theorem newMerkleTreeFromHashedLeaves_outcome (base : list crypto.Hash) :
  len base < 2 ^ 64 ->
  ((exists e : error, newMerkleTreeFromHashedLeaves base = Err e)
   <-> ~ (exists k : nat, length base = (2 ^ k)%nat)) /\
  (forall k : nat,
      length base = (2 ^ k)%nat ->
      exists T : MerkleTree,
        newMerkleTreeFromHashedLeaves base = Ok T /\
        WellFormed T /\ height T = k /\ nth_error T k = Some base).
Proof.
  intros Hlen.
  assert (Hk64 : forall k : nat, length base = (2 ^ k)%nat -> (k < 64)%nat).
  { intros k E. unfold len in Hlen. rewrite E, pow2_nat_Z in Hlen.
    apply Nat2Z.inj_lt. change (Z.of_nat 64) with 64.
    apply (Z.pow_lt_mono_r_iff 2); lia. }
  assert (Hok : forall k : nat, length base = (2 ^ k)%nat ->
             newMerkleTreeFromHashedLeaves base = Ok (halve_up k [base])).
  { intros k E. apply newMerkleTreeFromHashedLeaves_pow2; auto. }
  split.
  - split.
    + intros [e E] [k Hk]. rewrite (Hok k Hk) in E. discriminate.
    + intros Hn. unfold newMerkleTreeFromHashedLeaves.
      destruct (Z.eqb_spec (OnesCount64 (uint64 (len base))) 1) as [H1|_];
        cbn [negb]; [|eexists; reflexivity].
      exfalso. apply Hn. apply OnesCount64_one in H1 as [n Hn1].
      unfold uint64 in Hn1. rewrite Z.mod_small in Hn1 by (unfold len in *; lia).
      exists n. now apply pow2_Z_nat.
  - intros k E. exists (halve_up k [base]).
    split; [exact (Hok k E)|]. split; [now apply halve_up_WellFormed|].
    split.
    + unfold height. rewrite halve_up_length. simpl. lia.
    + pose proof (halve_up_old k base [] 0) as H.
      now rewrite Nat.add_0_r in H.
Qed.

Lemma newMerkleTreeFromHashedLeaves_outcome_witness :
  let base := [zeroHash; zero4kSectorHash; zeroHash] in
  ((exists e : error, newMerkleTreeFromHashedLeaves base = Err e)
   <-> ~ (exists k : nat, length base = (2 ^ k)%nat)) /\
  (forall k : nat,
      length base = (2 ^ k)%nat ->
      exists T : MerkleTree,
        newMerkleTreeFromHashedLeaves base = Ok T /\
        WellFormed T /\ height T = k /\ nth_error T k = Some base).
Proof.
  cbv zeta. apply newMerkleTreeFromHashedLeaves_outcome.
  vm_compute. reflexivity.
Defined.

(** X3: a base regrows into a well-formed tree of height 8 from which
    [ProtocolBase] extracts the same base again. *)
Theorem MakeTreeFromBase_ProtocolBase (base : MerkleBase) :
  length base = 256%nat ->
  exists T : MerkleTree,
    MakeTreeFromBase base = Ok T /\
    WellFormed T /\ height T = 8%nat /\
    ProtocolBase T = Ok base.
Proof.
  intros L. exists (halve_up 8 [base]).
  split; [|split; [|split]].
  - unfold MakeTreeFromBase.
    now rewrite (newMerkleTreeFromHashedLeaves_pow2 8) by (auto; lia).
  - now apply halve_up_WellFormed.
  - unfold height. rewrite halve_up_length. reflexivity.
  - apply ProtocolBase_level8; [|assumption].
    exact (halve_up_old 8 base [] 0).
Qed.

Lemma MakeTreeFromBase_ProtocolBase_witness :
  exists T : MerkleTree,
    MakeTreeFromBase ZeroMerkleBase = Ok T /\
    WellFormed T /\ height T = 8%nat /\
    ProtocolBase T = Ok ZeroMerkleBase.
Proof. apply MakeTreeFromBase_ProtocolBase. reflexivity. Defined.

(** X4: [ProtocolBase] returns level 8 of the tree when that level exists
    and holds 256 digests, and panics in every other case. *)
Theorem ProtocolBase_outcome (T : MerkleTree) :
  (forall base : MerkleBase,
      ProtocolBase T = Ok base
      <-> nth_error T 8 = Some base /\ length base = 256%nat) /\
  ((forall level : list crypto.Hash,
       nth_error T 8 = Some level -> length level <> 256%nat) ->
   ProtocolBase T = Panic).
Proof.
  assert (Hcase : forall level, nth_error T 8 = Some level ->
             length level <> 256%nat -> ProtocolBase T = Panic).
  { intros level E Hn. unfold ProtocolBase.
    change (Level T 8) with (Level T (Z.of_nat 8)).
    rewrite (Level_nth_error T 8 level E). cbn [bind].
    unfold len, ZeroMerkleBase. rewrite repeat_length.
    destruct (Z.eqb_spec (Z.of_nat (length level)) (Z.of_nat 256)); [lia|].
    reflexivity. }
  assert (Hnone : nth_error T 8 = None -> ProtocolBase T = Panic).
  { intros E. unfold ProtocolBase, Level, index.
    cbn [Z.ltb Z.compare]. change (Z.to_nat 8) with 8%nat.
    rewrite E. reflexivity. }
  split.
  - intros base. split.
    + intros H. destruct (nth_error T 8) as [level|] eqn:E.
      * destruct (Nat.eq_dec (length level) 256) as [L|L].
        -- rewrite (ProtocolBase_level8 T level E L) in H.
           apply Ok_inj in H. subst. auto.
        -- rewrite (Hcase level eq_refl L) in H. discriminate.
      * rewrite (Hnone eq_refl) in H. discriminate.
    + intros [E L]. now apply ProtocolBase_level8.
  - intros H. destruct (nth_error T 8) as [level|] eqn:E.
    + exact (Hcase level eq_refl (H level eq_refl)).
    + exact (Hnone eq_refl).
Qed.

(** ** The sector hash *)

Lemma NewMerkleTreeFromReader_err (r : Reader) (leafCount leafSize : Z) :
  0 <= leafSize ->
  ~ (exists k : nat, leafCount = 2 ^ Z.of_nat k)
  \/ MaxUint32 < leafCount
  \/ len r < leafCount * leafSize ->
  exists (r' : Reader) (e : error),
    NewMerkleTreeFromReader r leafCount leafSize = (r', Err e).
Proof.
  intros Hsize H. unfold NewMerkleTreeFromReader.
  destruct (Z.gtb_spec leafCount MaxUint32) as [Hgt|Hmax];
    [eexists; eexists; reflexivity|].
  destruct (Z.eqb_spec (OnesCount64 (uint64 leafCount)) 1) as [H1|H1];
    cbn [negb]; [|eexists; eexists; reflexivity].
  destruct (Z.ltb_spec leafSize 0) as [Hneg|_]; [lia|].
  apply OnesCount64_one in H1 as [n Hn].
  destruct (Z.le_gt_cases 0 leafCount) as [Hnonneg|Hnegative].
  - rewrite uint64_small in Hn by lia.
    destruct H as [H|[H|H]]; [destruct H; now exists n|lia|].
    destruct (read_leaves_err (Z.to_nat leafSize) (Z.to_nat leafCount) r [])
      as (r' & e & E).
    { unfold len in H. nia. }
    rewrite E. eexists. eexists. reflexivity.
  - replace (Z.to_nat leafCount) with O by lia.
    cbn [read_leaves]. eexists. eexists. reflexivity.
Qed.

(** X5: [HashSector] of a sector of [SectorLen] bytes.  When the number of
    whole subsectors [SectorLen / 4096] is a power of two [2^k] with
    [k <= 31], the sector hash is the recursive Merkle hash of the hashed
    4096-byte blocks of the sector (bytes after the last whole block are
    not read); for every other sector length [HashSector] panics. *)
Theorem HashSector_outcome (SectorLen : Z) (sector : Sector) :
  len sector = SectorLen ->
  (forall k : nat,
      (k <= 31)%nat -> SectorLen / SubsectorSize = 2 ^ Z.of_nat k ->
      HashSector SectorLen sector
      = Ok (merkle_root k (map hashLeaf (blocks (2 ^ k) 4096 sector)))) /\
  (~ (exists k : nat,
         (k <= 31)%nat /\ SectorLen / SubsectorSize = 2 ^ Z.of_nat k) ->
   HashSector SectorLen sector = Panic).
Proof.
  intros L. unfold HashSector, SubsectorCountSector. split.
  - intros k Hk E. rewrite E. unfold SubsectorSize in *.
    pose proof (Z.mul_div_le SectorLen 4096 ltac:(lia)) as Hle.
    rewrite E in Hle.
    change 4096 with (Z.of_nat 4096) at 1.
    rewrite NewMerkleTreeFromReader_ok.
    + rewrite Root_halve_up, iter_pairs_single
        by (now rewrite length_map, blocks_length).
      reflexivity.
    + assumption.
    + unfold len in L. rewrite <- pow2_nat_Z in Hle. lia.
  - intros Hn.
    destruct (NewMerkleTreeFromReader_err sector
                (SectorLen / SubsectorSize) SubsectorSize)
      as (r' & e & E); [unfold SubsectorSize; lia| |now rewrite E].
    destruct (Z.le_gt_cases (SectorLen / SubsectorSize) MaxUint32)
      as [Hmax|Hgt]; [|right; left; lia].
    left. intros [k Hk]. apply Hn. exists k. split; [|assumption].
    apply pow2_le_MaxUint32. now rewrite <- Hk.
Qed.

Lemma HashSector_outcome_witness :
  let sector := repeat x00 4096 ++ repeat x01 4096 ++ [x02; x03] in
  (forall k : nat,
      (k <= 31)%nat -> 8194 / SubsectorSize = 2 ^ Z.of_nat k ->
      HashSector 8194 sector
      = Ok (merkle_root k (map hashLeaf (blocks (2 ^ k) 4096 sector)))) /\
  (~ (exists k : nat,
         (k <= 31)%nat /\ 8194 / SubsectorSize = 2 ^ Z.of_nat k) ->
   HashSector 8194 sector = Panic).
Proof.
  cbv zeta. apply HashSector_outcome. vm_compute. reflexivity.
Defined.

(** ** The proof wire format *)

(** X6: a proof of 256 bytes survives [Encode] followed by [Decode];
    [MerkleProof.Decode] takes the first 256 bytes of a stream and leaves
    the rest, and on a shorter stream it returns [io.EOF] (nothing to
    read) or [io.ErrUnexpectedEOF]. *)
Theorem MerkleProof_wire (r : Reader) :
  (forall (proof : MerkleProof) (w : Writer),
      length proof = 256%nat ->
      MerkleProof_Encode proof w = (w ++ proof, None) /\
      MerkleProof_Decode (proof ++ r) = (r, Ok proof)) /\
  ((256 <= length r)%nat ->
   MerkleProof_Decode r = (skipn 256 r, Ok (firstn 256 r))) /\
  (r = [] -> MerkleProof_Decode r = ([], Err EOF)) /\
  ((0 < length r < 256)%nat ->
   MerkleProof_Decode r = ([], Err ErrUnexpectedEOF)).
Proof.
  unfold MerkleProof_Decode, MerkleProofLen.
  change (8 * 32)%nat with 256%nat.
  split; [|split; [|split]].
  - intros proof w L. split; [reflexivity|]. now apply ReadFull_app.
  - intros L. unfold ReadFull.
    destruct (Nat.ltb_spec (length r) 256); [lia|reflexivity].
  - intros ->. reflexivity.
  - intros L. unfold ReadFull.
    destruct (Nat.ltb_spec (length r) 256); [|lia].
    destruct r; [simpl in L; lia|reflexivity].
Qed.

(** ** The base wire format, continued *)

(** X7: a base survives [Encode] followed by [Decode]: the encoding is
    the 8192 bytes of its 256 digests in order, and decoding them, with
    any bytes that follow left in the stream, gives the base back. *)
Theorem MerkleBase_Encode_Decode (m : MerkleBase) (rest : list byte) :
  length m = 256%nat ->
  forallb (fun h : crypto.Hash => (length h =? 32)%nat) m = true ->
  MerkleBase_Encode m [] = (concat m, None) /\
  length (concat m) = (32 * 256)%nat /\
  MerkleBase_Decode (concat m ++ rest) = (rest, Ok m).
Proof.
  intros L D.
  assert (Lc : length (concat m) = (32 * 256)%nat).
  { rewrite (digests_length m D), L. reflexivity. }
  split; [|split; [exact Lc|]].
  - unfold MerkleBase_Encode. now rewrite write_hashes_spec.
  - rewrite MerkleBase_Decode_full by (rewrite length_app; lia).
    rewrite skipn_app, skipn_all2, <- Lc, Nat.sub_diag by lia.
    pose proof (blocks_concat m rest D) as E. rewrite L in E.
    now rewrite E.
Qed.

Lemma MerkleBase_Encode_Decode_witness :
  let m := repeat zero4kSectorHash 255 ++ [EmptyBlobBaseHash] in
  MerkleBase_Encode m [] = (concat m, None) /\
  length (concat m) = (32 * 256)%nat /\
  MerkleBase_Decode (concat m ++ [x07]) = ([x07], Ok m).
Proof.
  cbv zeta. apply MerkleBase_Encode_Decode; vm_compute; reflexivity.
Defined.

(** X8: [MerkleBase.Decode] returns an error exactly on the streams of at
    most 8160 bytes (255 digests), and the error is [io.EOF]; every longer
    stream is accepted, also when it is shorter than the 8192 bytes of a
    base. *)
Theorem MerkleBase_Decode_threshold (r : Reader) :
  ((exists (r' : Reader) (e : error), MerkleBase_Decode r = (r', Err e))
   <-> (length r <= 32 * 255)%nat) /\
  ((length r <= 32 * 255)%nat ->
   exists r' : Reader, MerkleBase_Decode r = (r', Err EOF)) /\
  ((32 * 255 < length r)%nat ->
   exists (r' : Reader) (m : MerkleBase), MerkleBase_Decode r = (r', Ok m)).
Proof.
  assert (Hacc : (32 * 255 < length r)%nat ->
            exists (r' : Reader) (m : MerkleBase),
              MerkleBase_Decode r = (r', Ok m)).
  { intros H. unfold MerkleBase_Decode, ZeroMerkleBase.
    rewrite repeat_length.
    apply MerkleBase_Decode_loop_accepts; [reflexivity|lia]. }
  split; [|split; [apply MerkleBase_Decode_short|exact Hacc]].
  split.
  - intros (r' & e & E).
    destruct (Nat.le_gt_cases (length r) (32 * 255)) as [|Hgt]; [assumption|].
    destruct (Hacc Hgt) as (r1 & m & E1). rewrite E1 in E. discriminate.
  - intros H. destruct (MerkleBase_Decode_short r H) as [r' E].
    exists r', EOF. exact E.
Qed.

(** ** The tree wire format, continued *)

Lemma Z_to_byte_to_Z (b : byte) : Z_to_byte (byte_to_Z b) = b.
Proof.
  pose proof (byte_to_Z_bounds b) as B.
  unfold Z_to_byte, uint8. rewrite Z.mod_small by lia.
  unfold byte_to_Z. rewrite N2Z.id, Byte.of_to_N. reflexivity.
Qed.

Lemma Z_to_byte_uint8 (z : Z) : Z_to_byte (uint8 z) = Z_to_byte z.
Proof.
  unfold Z_to_byte. unfold uint8 at 1 3. unfold uint8.
  now rewrite Z.mod_mod by lia.
Qed.

Lemma firstn_add {A : Type} (a b : nat) :
  forall l : list A,
    firstn (a + b) l = firstn a l ++ firstn b (skipn a l).
Proof.
  induction a as [|a IH]; intros [|x l]; simpl; try reflexivity.
  - now rewrite firstn_nil.
  - now rewrite IH.
Qed.

Lemma concat_blocks (size n : nat) :
  forall r : list byte,
    (n * size <= length r)%nat ->
    concat (blocks n size r) = firstn (n * size) r.
Proof.
  induction n as [|n IH]; intros r L; [reflexivity|].
  cbn [blocks concat]. rewrite IH by (rewrite length_skipn; lia).
  replace (S n * size)%nat with (size + n * size)%nat by lia.
  now rewrite firstn_add.
Qed.

Lemma blocks_digests (n : nat) :
  forall r : list byte,
    (n * 32 <= length r)%nat ->
    forallb (fun h : crypto.Hash => (length h =? 32)%nat) (blocks n 32 r)
    = true.
Proof.
  induction n as [|n IH]; intros r L; [reflexivity|].
  cbn [blocks forallb]. rewrite length_firstn, Nat.min_l by lia.
  rewrite Nat.eqb_refl. cbn [andb].
  apply IH. rewrite length_skipn. lia.
Qed.

Lemma read_hashes_blocks (n : nat) :
  forall (r : Reader) (level : list crypto.Hash),
    (n * 32 <= length r)%nat ->
    read_hashes n r level
    = (skipn (n * 32) r, Ok (level ++ blocks n 32 r)).
Proof.
  induction n as [|n IH]; intros r level L; cbn [read_hashes blocks].
  - now rewrite app_nil_r.
  - unfold Hash_Decode, ReadFull, crypto.HashLen.
    destruct (Nat.ltb_spec (length r) 32) as [H|_]; [lia|].
    rewrite IH by (rewrite length_skipn; lia).
    rewrite skipn_skipn, <- app_assoc.
    replace (n * 32 + 32)%nat with (S n * 32)%nat by lia. reflexivity.
Qed.

Lemma read_hashes_short (n : nat) :
  forall (r : Reader) (level : list crypto.Hash),
    (length r < n * 32)%nat ->
    exists (r' : Reader) (e : error),
      read_hashes n r level = (r', Err e) /\
      (e = EOF \/ e = ErrUnexpectedEOF).
Proof.
  induction n as [|n IH]; intros r level L; [lia|].
  cbn [read_hashes]. unfold Hash_Decode, ReadFull, crypto.HashLen.
  destruct (Nat.ltb_spec (length r) 32) as [H|H].
  - eexists. eexists. split; [reflexivity|]. destruct r; auto.
  - apply IH. rewrite length_skipn. lia.
Qed.

Lemma pow2_pos (k : nat) : (0 < 2 ^ k)%nat.
Proof. pose proof (Nat.pow_nonzero 2 k). lia. Qed.

Lemma Decode_levels_wire (j : nat) :
  forall (fuel : nat) (r : Reader) (tree : MerkleTree),
    (j < fuel)%nat -> ((2 ^ S j - 1) * 32 <= length r)%nat ->
    Decode_levels fuel (2 ^ Z.of_nat j) r tree
    = (skipn ((2 ^ S j - 1) * 32) r, Ok (wire_levels j r ++ tree)).
Proof.
  induction j as [|j IH]; intros [|fuel] r tree Hf L; try lia;
    cbn [Decode_levels].
  - change (Z.to_nat (2 ^ Z.of_nat 0)) with 1%nat.
    rewrite read_hashes_blocks by (simpl in L; lia). reflexivity.
  - pose proof (pow2_pos j) as Hp.
    rewrite Nat.pow_succ_r' in L. rewrite (Nat.pow_succ_r' 2 j) in L.
    rewrite pow2_to_nat.
    rewrite read_hashes_blocks by (rewrite Nat.pow_succ_r'; lia).
    cbn [app].
    rewrite Nat2Z.inj_succ, Z.pow_succ_r by lia.
    destruct (Z.eqb_spec (2 * 2 ^ Z.of_nat j) 1) as [H1|_].
    { pose proof (Z.pow_pos_nonneg 2 (Z.of_nat j)). lia. }
    replace (2 * 2 ^ Z.of_nat j / 2) with (2 ^ Z.of_nat j)
      by (rewrite Z.mul_comm, Z.div_mul; lia).
    rewrite IH; [|lia|rewrite length_skipn, !Nat.pow_succ_r'; lia].
    rewrite skipn_skipn. cbn [wire_levels].
    rewrite <- app_assoc. cbn [app].
    replace (32 * 2 ^ S j)%nat with (2 ^ S j * 32)%nat by lia.
    do 2 f_equal. rewrite !Nat.pow_succ_r'. lia.
Qed.

Lemma Decode_levels_short (j : nat) :
  forall (fuel : nat) (r : Reader) (tree : MerkleTree),
    (j < fuel)%nat -> (length r < (2 ^ S j - 1) * 32)%nat ->
    exists (r' : Reader) (e : error),
      Decode_levels fuel (2 ^ Z.of_nat j) r tree = (r', Err e) /\
      (e = EOF \/ e = ErrUnexpectedEOF).
Proof.
  induction j as [|j IH]; intros [|fuel] r tree Hf L; try lia;
    cbn [Decode_levels].
  - change (Z.to_nat (2 ^ Z.of_nat 0)) with 1%nat.
    destruct (read_hashes_short 1 r []) as (r' & e & E & He);
      [simpl in L; lia|].
    rewrite E. eauto.
  - pose proof (pow2_pos j) as Hp.
    rewrite Nat.pow_succ_r' in L. rewrite (Nat.pow_succ_r' 2 j) in L.
    rewrite pow2_to_nat.
    destruct (Nat.le_gt_cases (2 ^ S j * 32) (length r)) as [Hle|Hgt].
    + rewrite read_hashes_blocks by assumption.
      rewrite Nat2Z.inj_succ, Z.pow_succ_r by lia.
      destruct (Z.eqb_spec (2 * 2 ^ Z.of_nat j) 1) as [H1|_].
      { pose proof (Z.pow_pos_nonneg 2 (Z.of_nat j)). lia. }
      replace (2 * 2 ^ Z.of_nat j / 2) with (2 ^ Z.of_nat j)
        by (rewrite Z.mul_comm, Z.div_mul; lia).
      apply IH; [lia|].
      rewrite length_skipn. rewrite !Nat.pow_succ_r' in *. lia.
    + destruct (read_hashes_short (2 ^ S j) r []) as (r' & e & E & He);
        [assumption|].
      rewrite E. eauto.
Qed.

Lemma wire_levels_length (j : nat) :
  forall r : list byte, length (wire_levels j r) = S j.
Proof.
  induction j as [|j IH]; intros r; [reflexivity|].
  cbn [wire_levels]. rewrite length_app, IH. simpl. lia.
Qed.

Lemma wire_levels_WellShaped (j : nat) :
  forall r : list byte, WellShaped (wire_levels j r).
Proof.
  induction j as [|j IH]; intros r.
  - split; [discriminate|]. intros [|[|i]] level H; simpl in H;
      try discriminate. injection H as <-. reflexivity.
  - cbn [wire_levels]. split.
    + intros E. apply (f_equal (@length _)) in E.
      rewrite length_app in E. simpl in E. lia.
    + intros i level H.
      destruct (Nat.lt_ge_cases i (S j)) as [Hlt|Hge].
      * rewrite nth_error_app1 in H by (rewrite wire_levels_length; lia).
        exact (proj2 (IH _) i level H).
      * rewrite nth_error_app2 in H by (rewrite wire_levels_length; lia).
        rewrite wire_levels_length in H.
        destruct (i - S j)%nat as [|d] eqn:Ed; cbn [nth_error] in H.
        -- injection H as <-. rewrite blocks_length.
           replace i with (S j) by lia. reflexivity.
        -- destruct d; discriminate.
Qed.

Lemma wire_levels_digests (j : nat) :
  forall r : list byte,
    ((2 ^ S j - 1) * 32 <= length r)%nat ->
    digests_ok (wire_levels j r) = true.
Proof.
  unfold digests_ok. induction j as [|j IH]; intros r L.
  - cbn [wire_levels forallb]. rewrite blocks_digests by (simpl in L; lia).
    reflexivity.
  - pose proof (pow2_pos j) as Hp.
    rewrite Nat.pow_succ_r' in L. rewrite (Nat.pow_succ_r' 2 j) in L.
    cbn [wire_levels]. rewrite forallb_app. cbn [forallb].
    rewrite IH by (rewrite length_skipn, !Nat.pow_succ_r'; lia).
    rewrite blocks_digests by (rewrite Nat.pow_succ_r'; lia).
    reflexivity.
Qed.

Lemma wire_levels_bytes (j : nat) :
  forall r : list byte,
    ((2 ^ S j - 1) * 32 <= length r)%nat ->
    concat (concat (rev (wire_levels j r)))
    = firstn ((2 ^ S j - 1) * 32) r.
Proof.
  induction j as [|j IH]; intros r L.
  - cbn [wire_levels rev app concat]. rewrite !app_nil_r.
    rewrite concat_blocks by (simpl in L; lia). reflexivity.
  - pose proof (pow2_pos j) as Hp.
    rewrite Nat.pow_succ_r' in L. rewrite (Nat.pow_succ_r' 2 j) in L.
    cbn [wire_levels]. rewrite rev_app_distr. cbn [rev app concat].
    rewrite concat_app.
    rewrite IH by (rewrite length_skipn, !Nat.pow_succ_r'; lia).
    rewrite concat_blocks by (rewrite Nat.pow_succ_r'; lia).
    replace (32 * 2 ^ S j)%nat with (2 ^ S j * 32)%nat by lia.
    rewrite <- firstn_add. f_equal. rewrite !Nat.pow_succ_r'. lia.
Qed.

Lemma MerkleTree_Encode_spec (T : MerkleTree) (w : Writer) :
  T <> [] ->
  MerkleTree_Encode T w
  = Ok (w ++ Z_to_byte (Z.of_nat (height T)) :: concat (concat (rev T)),
        None).
Proof.
  intros Hne.
  assert (Hlen : (0 < length T)%nat) by (destruct T; [contradiction|simpl; lia]).
  unfold MerkleTree_Encode, Height, len.
  destruct (Z.eqb_spec (Z.of_nat (length T)) 0) as [H0|_]; [lia|].
  cbn [bind]. unfold Write.
  rewrite Encode_levels_spec by lia. rewrite firstn_all, <- app_assoc.
  rewrite Z_to_byte_uint8.
  replace (Z.of_nat (length T) - 1) with (Z.of_nat (height T))
    by (unfold height; lia).
  reflexivity.
Qed.

Lemma MerkleTree_Decode_header (b : byte) (rest : list byte) :
  byte_to_Z b <= 32 ->
  MerkleTree_Decode (b :: rest)
  = Decode_levels 33 (2 ^ Z.of_nat (Z.to_nat (byte_to_Z b))) rest [].
Proof.
  intros H32. pose proof (byte_to_Z_bounds b) as B.
  unfold MerkleTree_Decode.
  change (b :: rest) with ([b] ++ rest).
  rewrite (ReadFull_app [b] rest 1%nat eq_refl). cbn [hd].
  destruct (Z.gtb_spec (byte_to_Z b) 32) as [Hgt|_]; [lia|].
  unfold uint8. rewrite Z.mod_small by lia.
  rewrite Z.shiftl_1_l, Z2Nat.id by lia. reflexivity.
Qed.

Lemma MerkleTree_Decode_too_deep_aux (b : byte) (rest : list byte) :
  32 < byte_to_Z b ->
  MerkleTree_Decode (b :: rest)
  = (rest, Err (ErrorString "refusing decode tree over 32 levels deep")).
Proof.
  intros H. unfold MerkleTree_Decode.
  change (b :: rest) with ([b] ++ rest).
  rewrite (ReadFull_app [b] rest 1%nat eq_refl). cbn [hd].
  destruct (Z.gtb_spec (byte_to_Z b) 32) as [_|Hle]; [reflexivity|lia].
Qed.

(** X9: [MerkleTree.Decode] refuses a height byte over 32 and has then
    consumed that byte only; the digests that follow stay in the
    stream. *)
Theorem MerkleTree_Decode_too_deep (b : byte) (rest : list byte) :
  32 < byte_to_Z b ->
  MerkleTree_Decode (b :: rest)
  = (rest, Err (ErrorString "refusing decode tree over 32 levels deep")).
Proof.
  intros H. unfold MerkleTree_Decode.
  change (b :: rest) with ([b] ++ rest).
  rewrite (ReadFull_app [b] rest 1%nat eq_refl). cbn [hd].
  destruct (Z.gtb_spec (byte_to_Z b) 32) as [_|Hle]; [reflexivity|lia].
Qed.

Lemma MerkleTree_Decode_too_deep_witness :
  MerkleTree_Decode (x21 :: zeroHash)
  = (zeroHash, Err (ErrorString "refusing decode tree over 32 levels deep")).
Proof. apply MerkleTree_Decode_too_deep. vm_compute. reflexivity. Defined.

(** X10: [MerkleTree.Decode] on a stream that starts with a height byte
    [H <= 32].  With at least [2^(H+1) - 1] digests of 32 bytes after the
    height byte it returns the [H + 1] levels the stream carries and leaves
    the bytes that follow; with fewer bytes it returns [io.EOF] or
    [io.ErrUnexpectedEOF]. *)
Theorem MerkleTree_Decode_outcome (b : byte) (rest : list byte) :
  byte_to_Z b <= 32 ->
  let H := Z.to_nat (byte_to_Z b) in
  let n := ((2 ^ S H - 1) * 32)%nat in
  ((n <= length rest)%nat ->
   MerkleTree_Decode (b :: rest) = (skipn n rest, Ok (wire_levels H rest)))
  /\
  ((length rest < n)%nat ->
   exists (r' : Reader) (e : error),
     MerkleTree_Decode (b :: rest) = (r', Err e) /\
     (e = EOF \/ e = ErrUnexpectedEOF)).
Proof.
  intros H32 H n. pose proof (byte_to_Z_bounds b) as B.
  rewrite (MerkleTree_Decode_header b rest H32). fold H. split.
  - intros L. rewrite Decode_levels_wire by (assumption || (unfold H; lia)).
    now rewrite app_nil_r.
  - intros L. apply Decode_levels_short; [unfold H; lia|assumption].
Qed.

Lemma MerkleTree_Decode_outcome_witness :
  let b := x01 in
  let rest := zero4kSectorHash ++ EmptyBlobBaseHash ++ zeroHash ++ [x09] in
  let H := Z.to_nat (byte_to_Z b) in
  let n := ((2 ^ S H - 1) * 32)%nat in
  ((n <= length rest)%nat ->
   MerkleTree_Decode (b :: rest) = (skipn n rest, Ok (wire_levels H rest)))
  /\
  ((length rest < n)%nat ->
   exists (r' : Reader) (e : error),
     MerkleTree_Decode (b :: rest) = (r', Err e) /\
     (e = EOF \/ e = ErrUnexpectedEOF)).
Proof.
  cbv zeta. apply MerkleTree_Decode_outcome. vm_compute. discriminate.
Defined.

(** X11: whatever [MerkleTree.Decode] accepts is a well-shaped tree of
    height at most 32 with digests of 32 bytes, and [Encode] of the decoded
    tree writes back exactly the bytes that [Decode] consumed. *)
Theorem MerkleTree_Decode_Encode (r r' : Reader) (T : MerkleTree) :
  MerkleTree_Decode r = (r', Ok T) ->
  WellShaped T /\ digests_ok T = true /\ (height T <= 32)%nat /\
  exists bytes : list byte,
    MerkleTree_Encode T [] = Ok (bytes, None) /\ r = bytes ++ r'.
Proof.
  intros E. destruct r as [|b rest]; [discriminate E|].
  pose proof (byte_to_Z_bounds b) as B.
  destruct (Z.le_gt_cases (byte_to_Z b) 32) as [H32|Hgt].
  2:{ unfold MerkleTree_Decode in E.
      change (b :: rest) with ([b] ++ rest) in E.
      rewrite (ReadFull_app [b] rest 1%nat eq_refl) in E. cbn [hd] in E.
      destruct (Z.gtb_spec (byte_to_Z b) 32); [discriminate E|lia]. }
  rewrite (MerkleTree_Decode_header b rest H32) in E.
  set (H := Z.to_nat (byte_to_Z b)) in *.
  destruct (Nat.le_gt_cases ((2 ^ S H - 1) * 32) (length rest)) as [L|L].
  2:{ destruct (Decode_levels_short H 33 rest [] ltac:(unfold H; lia) L)
        as (r1 & e & E1 & _).
      rewrite E1 in E. discriminate E. }
  rewrite Decode_levels_wire in E by (assumption || (unfold H; lia)).
  rewrite app_nil_r in E. injection E as <- <-.
  assert (Hh : height (wire_levels H rest) = H).
  { unfold height. rewrite wire_levels_length. lia. }
  split; [apply wire_levels_WellShaped|].
  split; [now apply wire_levels_digests|].
  split; [rewrite Hh; unfold H; lia|].
  eexists. split.
  - apply MerkleTree_Encode_spec.
    intros E0. apply (f_equal (@length _)) in E0.
    rewrite wire_levels_length in E0. discriminate.
  - cbn [app]. rewrite Hh, wire_levels_bytes by assumption.
    unfold H. rewrite Z2Nat.id, Z_to_byte_to_Z by lia.
    cbn [app]. now rewrite firstn_skipn.
Qed.

Lemma MerkleTree_Decode_Encode_witness :
  let r := x01 :: zero4kSectorHash ++ EmptyBlobBaseHash ++ zeroHash ++ [x09] in
  let T := [[zeroHash]; [zero4kSectorHash; EmptyBlobBaseHash]] in
  WellShaped T /\ digests_ok T = true /\ (height T <= 32)%nat /\
  exists bytes : list byte,
    MerkleTree_Encode T [] = Ok (bytes, None) /\ r = bytes ++ [x09].
Proof.
  cbv zeta. apply MerkleTree_Decode_Encode. vm_compute. reflexivity.
Defined.

(** X12: [MerkleTree.Encode] of any non-empty tree writes one byte, the
    height modulo 256, and then the digests of every level, last level
    first; it asks nothing of the shape of the tree. *)
Theorem MerkleTree_Encode_layout (T : MerkleTree) (w : Writer) :
  T <> [] ->
  exists hb : byte,
    MerkleTree_Encode T w
    = Ok (w ++ hb :: concat (concat (rev T)), None) /\
    byte_to_Z hb = Z.of_nat (height T) mod 256.
Proof.
  intros Hne. exists (Z_to_byte (Z.of_nat (height T))).
  split; [now apply MerkleTree_Encode_spec|apply byte_to_Z_to_byte].
Qed.

Lemma MerkleTree_Encode_layout_witness :
  let T := [[zeroHash; zeroHash]; []; [EmptyBlobBaseHash]] in
  exists hb : byte,
    MerkleTree_Encode T [x07]
    = Ok ([x07] ++ hb :: concat (concat (rev T)), None) /\
    byte_to_Z hb = Z.of_nat (height T) mod 256.
Proof. cbv zeta. apply MerkleTree_Encode_layout. discriminate. Defined.

(** X13: [Encode] does not bound the height that [Decode] bounds: a tree
    whose height modulo 256 exceeds 32 is encoded without an error, and
    [Decode] refuses the bytes that [Encode] wrote. *)
Theorem MerkleTree_Encode_then_Decode_refused (T : MerkleTree) :
  T <> [] -> 32 < Z.of_nat (height T) mod 256 ->
  exists bytes : list byte,
    MerkleTree_Encode T [] = Ok (bytes, None) /\
    MerkleTree_Decode bytes
    = (tl bytes,
       Err (ErrorString "refusing decode tree over 32 levels deep")).
Proof.
  intros Hne Hh. eexists. split.
  - now apply MerkleTree_Encode_spec.
  - cbn [app tl]. apply MerkleTree_Decode_too_deep_aux.
    now rewrite byte_to_Z_to_byte.
Qed.

Lemma MerkleTree_Encode_then_Decode_refused_witness :
  let T := repeat [zeroHash] 34 in
  exists bytes : list byte,
    MerkleTree_Encode T [] = Ok (bytes, None) /\
    MerkleTree_Decode bytes
    = (tl bytes,
       Err (ErrorString "refusing decode tree over 32 levels deep")).
Proof.
  cbv zeta. apply MerkleTree_Encode_then_Decode_refused.
  - discriminate.
  - vm_compute. reflexivity.
Defined.

(** ** The layout of a sector proof *)

Lemma sibling_spec (pos : Z) :
  0 <= pos ->
  sibling pos = if pos mod 2 =? 0 then pos + 1 else pos - 1.
Proof.
  intros Hpos. unfold sibling.
  assert (Heven : forall x, 0 <= x -> x mod 2 = 0 -> Z.lxor x 1 = x + 1).
  { intros x Hx Hm. symmetry. apply Z.add_nocarry_lxor.
    change 1 with (Z.ones 1). rewrite Z.land_ones by lia.
    change (2 ^ 1) with 2. exact Hm. }
  pose proof (Z.mod_pos_bound pos 2 ltac:(lia)) as B.
  pose proof (Z.div_mod pos 2 ltac:(lia)) as DM.
  destruct (Z.eqb_spec (pos mod 2) 0) as [E|E].
  - now apply Heven.
  - assert (Hm : (pos - 1) mod 2 = 0).
    { replace (pos - 1) with (0 + (pos / 2) * 2) by lia.
      now rewrite Z.mod_add by lia. }
    pose proof (Heven (pos - 1) ltac:(lia) Hm) as H.
    replace (pos - 1 + 1) with pos in H by lia.
    rewrite <- H at 1. rewrite Z.lxor_assoc, Z.lxor_nilpotent.
    apply Z.lxor_0_r.
Qed.

Lemma MakeSectorProof_loop_layout (T : MerkleTree) :
  WellShaped T -> digests_ok T = true ->
  forall (n : nat) (pos : Z) (buf : list byte),
    (n <= 8)%nat -> (n <= height T)%nat -> 0 <= pos < 2 ^ Z.of_nat n ->
    exists sibs : list byte,
      MakeSectorProof_loop n T pos buf = Ok (buf ++ sibs) /\
      length sibs = (32 * n)%nat /\
      forall k : nat,
        (k < n)%nat ->
        exists level : list crypto.Hash,
          nth_error T (n - k) = Some level /\
          nth_error level (Z.to_nat (sibling (pos / 2 ^ Z.of_nat k)))
          = Some (firstn 32 (skipn (32 * k) sibs)).
Proof.
  intros W D. induction n as [|n IH]; intros pos buf Hn Hh Hpos.
  - exists []. cbn [MakeSectorProof_loop]. rewrite app_nil_r.
    repeat split. intros k Hk. lia.
  - destruct (WellShaped_level T (S n) W Hh) as (level & Hl & L).
    rewrite Nat2Z.inj_succ, Z.pow_succ_r in Hpos by lia.
    assert (Hlen : Z.of_nat (length level) = 2 * 2 ^ Z.of_nat n).
    { rewrite L, pow2_nat_Z, Nat2Z.inj_succ, Z.pow_succ_r by lia.
      reflexivity. }
    assert (H256 : 2 * 2 ^ Z.of_nat n <= 256).
    { change 256 with (2 * 2 ^ 7). apply Z.mul_le_mono_nonneg_l; [lia|].
      apply Z.pow_le_mono_r; lia. }
    pose proof (Z.div_mod pos 2 ltac:(lia)) as Hdm.
    pose proof (Z.mod_pos_bound pos 2 ltac:(lia)) as Hmb.
    pose proof (sibling_spec pos ltac:(lia)) as Hsp.
    assert (Hs : 0 <= sibling pos < 2 * 2 ^ Z.of_nat n).
    { rewrite Hsp. destruct (Z.eqb_spec (pos mod 2) 0); lia. }
    destruct (nth_error level (Z.to_nat (sibling pos))) as [sib|] eqn:Es.
    2:{ apply nth_error_None in Es. lia. }
    assert (Lsib : length sib = 32%nat)
      by exact (digests_ok_nth T (S n) _ level sib D Hl Es).
    assert (Hidx : (if pos mod 2 =? 0 then index level (uint8 (pos + 1))
                    else index level (uint8 (pos - 1))) = Ok sib).
    { rewrite Hsp in Es, Hs. unfold uint8.
      destruct (Z.eqb_spec (pos mod 2) 0);
        rewrite Z.mod_small by lia; apply index_Z; (lia || assumption). }
    destruct (IH (pos / 2) (buf ++ crypto.Bytes sib) ltac:(lia) ltac:(lia)
                ltac:(lia)) as (sibs & Hmk & Ls & Hk).
    exists (sib ++ sibs). split; [|split].
    + cbn [MakeSectorProof_loop].
      rewrite (index_nth_error T (S n) level Hl). cbn [bind].
      rewrite Hidx. cbn [bind]. rewrite Hmk.
      unfold crypto.Bytes. now rewrite <- app_assoc.
    + rewrite length_app, Lsib, Ls. lia.
    + intros [|k] Hklt.
      * exists level. rewrite Nat.sub_0_r. split; [assumption|].
        change (2 ^ Z.of_nat 0) with 1. rewrite Z.div_1_r, Es.
        rewrite Nat.mul_0_r. cbn [skipn].
        rewrite firstn_app.
        replace (32 - length sib)%nat with 0%nat by lia.
        rewrite firstn_all2 by lia. cbn [firstn]. now rewrite app_nil_r.
      * destruct (Hk k ltac:(lia)) as (lv & Hlv & Hnth).
        exists lv. split; [exact Hlv|].
        rewrite Nat2Z.inj_succ, Z.pow_succ_r by lia.
        rewrite <- Z.div_div by (try lia; apply Z.pow_pos_nonneg; lia).
        rewrite Hnth. do 2 f_equal.
        replace (32 * S k)%nat with (32 * k + length sib)%nat by lia.
        rewrite <- skipn_skipn.
        rewrite (skipn_app (length sib) sib sibs), Nat.sub_diag, skipn_all.
        reflexivity.
Qed.

(** X14: the layout of a sector proof.  For a well-shaped tree of height at
    least 8 and a position in [0, 255], [MakeSectorProof] returns 256
    bytes: eight digests of 32 bytes, the [k]-th being the sibling, at
    level [8 - k], of the ancestor of the position ([position / 2^k]
    with its lowest bit flipped). *)
Theorem MakeSectorProof_layout (T : MerkleTree) (p : Z) :
  WellShaped T -> (8 <= height T)%nat -> digests_ok T = true ->
  0 <= p <= 255 ->
  exists proof : MerkleProof,
    MakeSectorProof T p = Ok proof /\
    length proof = 256%nat /\
    forall k : nat,
      (k < 8)%nat ->
      exists level : list crypto.Hash,
        nth_error T (8 - k) = Some level /\
        nth_error level (Z.to_nat (sibling (p / 2 ^ Z.of_nat k)))
        = Some (firstn 32 (skipn (32 * k) proof)).
Proof.
  intros W H8 D Hp.
  destruct (MakeSectorProof_loop_layout T W D 8 p [] ltac:(lia) H8
              ltac:(simpl; lia)) as (sibs & Hmk & Ls & Hk).
  exists sibs. split; [|split; [exact Ls|exact Hk]].
  unfold MakeSectorProof, SubsectorProofLevel. rewrite Hmk. cbn [bind app].
  rewrite copy_same_length; [reflexivity|].
  rewrite repeat_length, Ls. reflexivity.
Qed.

Lemma MakeSectorProof_layout_witness :
  let T := halve_up 8 [repeat EmptyBlobBaseHash 256] in
  exists proof : MerkleProof,
    MakeSectorProof T 6 = Ok proof /\
    length proof = 256%nat /\
    forall k : nat,
      (k < 8)%nat ->
      exists level : list crypto.Hash,
        nth_error T (8 - k) = Some level /\
        nth_error level (Z.to_nat (sibling (6 / 2 ^ Z.of_nat k)))
        = Some (firstn 32 (skipn (32 * k) proof)).
Proof.
  cbv zeta. apply MakeSectorProof_layout.
  - apply (proj1 (halve_up_WellFormed 8 (repeat EmptyBlobBaseHash 256)
                    eq_refl)).
  - unfold height. rewrite halve_up_length. simpl. lia.
  - vm_compute. reflexivity.
  - lia.
Defined.

(** ** Proofs from the base alone *)

Lemma MakeSectorProof_loop_ext (T T' : MerkleTree) (n : nat) :
  forall (pos : Z) (buf : list byte),
    (forall i : nat, (1 <= i <= n)%nat -> nth_error T i = nth_error T' i) ->
    MakeSectorProof_loop n T pos buf = MakeSectorProof_loop n T' pos buf.
Proof.
  induction n as [|n IH]; intros pos buf H; [reflexivity|].
  cbn [MakeSectorProof_loop].
  assert (E : index T (Z.of_nat (S n)) = index T' (Z.of_nat (S n))).
  { unfold index. rewrite Nat2Z.id, (H (S n)) by lia. reflexivity. }
  rewrite E. destruct (index T' (Z.of_nat (S n))); cbn [bind]; try reflexivity.
  destruct (if pos mod 2 =? 0 then index a (uint8 (pos + 1))
            else index a (uint8 (pos - 1))); cbn [bind]; try reflexivity.
  apply IH. intros i Hi. apply H. lia.
Qed.

(** X15: a holder of the base alone makes the same sector proofs as a
    holder of the whole tree: for a well-formed tree of height at least 8,
    the tree regrown from its base gives, for every position, the proof
    (and the root) that the original tree gives. *)
Theorem proofs_from_base (T : MerkleTree) (p : Z) :
  WellFormed T -> (8 <= height T)%nat ->
  exists (base : MerkleBase) (T' : MerkleTree),
    ProtocolBase T = Ok base /\
    MakeTreeFromBase base = Ok T' /\
    MakeSectorProof T' p = MakeSectorProof T p /\
    Root T' = Root T.
Proof.
  intros W H8.
  destruct (WellShaped_level T 8 (proj1 W) H8) as (base & Hb & Lb).
  exists base, (halve_up 8 [base]).
  assert (Hlv : forall i : nat, (i <= 8)%nat ->
             nth_error (halve_up 8 [base]) i = nth_error T i).
  { intros i Hi. rewrite halve_up_new by assumption.
    destruct (WellShaped_level T i (proj1 W) ltac:(lia)) as (up & Hu & _).
    rewrite Hu. f_equal. symmetry.
    apply (WellFormed_iter T (8 - i) i up base W Hu).
    now replace (i + (8 - i))%nat with 8%nat by lia. }
  split; [now apply ProtocolBase_level8|]. split.
  { unfold MakeTreeFromBase.
    now rewrite (newMerkleTreeFromHashedLeaves_pow2 8) by (auto; lia). }
  split.
  - unfold MakeSectorProof.
    rewrite (MakeSectorProof_loop_ext (halve_up 8 [base]) T); [reflexivity|].
    intros i Hi. apply Hlv. unfold SubsectorProofLevel in Hi. lia.
  - unfold Root, index. cbn [Z.ltb Z.compare Z.to_nat].
    now rewrite (Hlv 0%nat) by lia.
Qed.

Lemma proofs_from_base_witness :
  let T := halve_up 10 [repeat zero4kSectorHash 1024] in
  exists (base : MerkleBase) (T' : MerkleTree),
    ProtocolBase T = Ok base /\
    MakeTreeFromBase base = Ok T' /\
    MakeSectorProof T' 129 = MakeSectorProof T 129 /\
    Root T' = Root T.
Proof.
  cbv zeta. apply proofs_from_base.
  - apply halve_up_WellFormed. reflexivity.
  - unfold height. rewrite halve_up_length. simpl. lia.
Defined.

(** ** Blobs, sector proofs and base diffs together *)

Lemma sector_proof_verifies (SectorLen : Z) (S : Sector) (p : Z)
    (T : MerkleTree) (level : list crypto.Hash) (h : crypto.Hash) :
  WellFormed T -> digests_ok T = true -> 0 <= p <= 255 ->
  nth_error T 8 = Some level -> nth_error level (Z.to_nat p) = Some h ->
  HashSector SectorLen S = Ok h ->
  exists (root : crypto.Hash) (proof : MerkleProof),
    Root T = Ok root /\
    MakeSectorProof T p = Ok proof /\
    VerifySectorProof SectorLen S p root proof = Ok true.
Proof.
  intros W D Hp Hl Eh Hs.
  destruct (sector_proof_walk T W D 8 p level h []
              ltac:(lia) ltac:(simpl; lia) Hl Eh)
    as (sibs & root & Hmk & Ls & Hroot & Hver).
  exists root, sibs. split; [|split].
  - unfold Root. rewrite (index_head T [root] Hroot). reflexivity.
  - unfold MakeSectorProof, SubsectorProofLevel. rewrite Hmk. cbn [bind app].
    rewrite copy_same_length; [reflexivity|].
    rewrite repeat_length, Ls. reflexivity.
  - unfold VerifySectorProof, MerkleTreeHeight. rewrite Hs. cbn [bind].
    pose proof (Hver []) as Hv. rewrite app_nil_r in Hv. rewrite Hv.
    now rewrite bytes_Equal_refl.
Qed.

(** The tree and the base of a blob of 256 sectors of [2^k] subsectors. *)
Lemma blob_layout (k : nat) (B : list byte) :
  (k <= 23)%nat -> length B = (256 * (2 ^ k * 4096))%nat ->
  exists (T : MerkleTree) (base : MerkleBase),
    Merkleize (256 * (2 ^ Z.of_nat k * 4096)) B = ([], Ok T) /\
    WellFormed T /\ digests_ok T = true /\
    nth_error T 8 = Some base /\ length base = 256%nat /\
    ProtocolBase T = Ok base /\
    forall p : nat,
      (p < 256)%nat ->
      exists h : crypto.Hash,
        nth_error base p = Some h /\
        HashSector (2 ^ Z.of_nat k * 4096)
          (sector_at (2 ^ Z.of_nat k * 4096) B (Z.of_nat p)) = Ok h.
Proof.
  intros Hk L.
  set (leaves := map hashLeaf (blocks (2 ^ (k + 8)) 4096 B)).
  assert (E28 : (2 ^ (k + 8))%nat = (256 * 2 ^ k)%nat).
  { rewrite Nat.pow_add_r. change (2 ^ 8)%nat with 256%nat. lia. }
  assert (Ll : length leaves = (2 ^ (k + 8))%nat).
  { unfold leaves. now rewrite length_map, blocks_length. }
  assert (H8 : nth_error (halve_up (k + 8) [leaves]) 8
               = Some (Nat.iter k pairs leaves)).
  { rewrite halve_up_new by lia. do 2 f_equal. lia. }
  assert (L8 : length (Nat.iter k pairs leaves) = 256%nat).
  { apply iter_pairs_length_mul. rewrite Ll, E28. reflexivity. }
  assert (EM : Merkleize (256 * (2 ^ Z.of_nat k * 4096)) B
               = ([], Ok (halve_up (k + 8) [leaves]))).
  { unfold Merkleize, SubsectorCountBlob, SubsectorSize.
    replace (256 * (2 ^ Z.of_nat k * 4096) / 4096)
      with (2 ^ Z.of_nat (k + 8)).
    2:{ rewrite Z.mul_assoc, Z.div_mul by lia.
        rewrite Nat2Z.inj_add, Z.pow_add_r by lia.
        change (2 ^ Z.of_nat 8) with 256. lia. }
    change 4096 with (Z.of_nat 4096).
    rewrite NewMerkleTreeFromReader_ok by lia.
    rewrite skipn_all2 by lia. reflexivity. }
  exists (halve_up (k + 8) [leaves]), (Nat.iter k pairs leaves).
  split; [exact EM|].
  split; [now apply halve_up_WellFormed|].
  split.
  { apply halve_up_digests. unfold digests_ok. cbn [forallb].
    unfold leaves. now rewrite map_hashLeaf_digests. }
  split; [exact H8|]. split; [exact L8|].
  split; [now apply ProtocolBase_level8|].
  intros p Hp.
  destruct (Merkleize_base_entry k p B Hk Hp L) as (T & base & ET & EB & EN).
  rewrite EM in ET. injection ET as <-.
  rewrite (ProtocolBase_level8 _ _ H8 L8) in EB. apply Ok_inj in EB.
  subst base.
  pose proof (HashSector_sector_at k p B ltac:(lia) ltac:(rewrite L; nia))
    as Hs.
  set (top := Nat.iter k pairs
                (map hashLeaf (blocks (2 ^ k) 4096
                   (skipn (p * (2 ^ k * 4096)) B)))) in *.
  assert (Lt : length top = 1%nat).
  { apply iter_pairs_length_mul. rewrite length_map, blocks_length. lia. }
  destruct top as [|h [|? ?]]; try discriminate Lt.
  exists h. split; [exact EN|exact Hs].
Qed.

(** X16: every sector of a blob verifies against the root of the blob.
    For a blob of 256 sectors of [2^k] subsectors each ([k <= 23]) and its
    tree [T] from [Merkleize], the proof that [MakeSectorProof] makes for
    position [p] and the bytes of sector [p] pass [VerifySectorProof]
    against the root of [T], for every [p] in [0, 255]. *)
Theorem blob_sector_proof_verifies (k : nat) (Size SectorLen : Z)
    (B : list byte) (p : Z) :
  (k <= 23)%nat ->
  SectorLen = 2 ^ Z.of_nat k * SubsectorSize ->
  Size = 256 * SectorLen ->
  len B = Size ->
  0 <= p <= 255 ->
  exists (T : MerkleTree) (root : crypto.Hash) (proof : MerkleProof),
    Merkleize Size B = ([], Ok T) /\
    Root T = Ok root /\
    MakeSectorProof T p = Ok proof /\
    VerifySectorProof SectorLen (sector_at SectorLen B p) p root proof
    = Ok true.
Proof.
  unfold SubsectorSize. intros Hk -> -> L Hp.
  assert (Ln : length B = (256 * (2 ^ k * 4096))%nat).
  { unfold len in L. rewrite <- pow2_nat_Z in L. lia. }
  destruct (blob_layout k B Hk Ln)
    as (T & base & EM & W & D & H8 & L8 & _ & Hsec).
  destruct (Hsec (Z.to_nat p) ltac:(lia)) as (h & Hn & Hs).
  rewrite Z2Nat.id in Hs by lia.
  destruct (sector_proof_verifies _ _ p T base h W D Hp H8 Hn Hs)
    as (root & proof & HR & HM & HV).
  exists T, root, proof. auto.
Qed.

Lemma blob_sector_proof_verifies_witness :
  let B := repeat x00 (256 * (2 ^ 4 * 4096)) in
  exists (T : MerkleTree) (root : crypto.Hash) (proof : MerkleProof),
    Merkleize 16777216 B = ([], Ok T) /\
    Root T = Ok root /\
    MakeSectorProof T 254 = Ok proof /\
    VerifySectorProof 65536 (sector_at 65536 B 254) 254 root proof
    = Ok true.
Proof.
  cbv zeta.
  apply (blob_sector_proof_verifies 4 16777216 65536
           (repeat x00 (256 * (2 ^ 4 * 4096))) 254).
  - lia.
  - reflexivity.
  - reflexivity.
  - unfold len. rewrite repeat_length, !Nat2Z.inj_mul, pow2_nat_Z.
    reflexivity.
  - lia.
Defined.

(** X17: the diff of the bases of two blobs names the changed sectors.
    For two blobs of 256 sectors of [2^k] subsectors each, [DiffWith] on
    their bases returns exactly the positions whose sectors have different
    sector hashes; a position whose sector bytes are the same in both
    blobs is never returned. *)
Theorem DiffWith_changed_sectors (k : nat) (Size SectorLen : Z)
    (B1 B2 : list byte) :
  (k <= 23)%nat ->
  SectorLen = 2 ^ Z.of_nat k * SubsectorSize ->
  Size = 256 * SectorLen ->
  len B1 = Size -> len B2 = Size ->
  exists (T1 T2 : MerkleTree) (b1 b2 : MerkleBase),
    Merkleize Size B1 = ([], Ok T1) /\ ProtocolBase T1 = Ok b1 /\
    Merkleize Size B2 = ([], Ok T2) /\ ProtocolBase T2 = Ok b2 /\
    (forall p : Z,
        In p (DiffWith b1 b2) <->
        0 <= p <= 255 /\
        HashSector SectorLen (sector_at SectorLen B1 p)
        <> HashSector SectorLen (sector_at SectorLen B2 p)) /\
    (forall p : Z,
        0 <= p <= 255 ->
        sector_at SectorLen B1 p = sector_at SectorLen B2 p ->
        ~ In p (DiffWith b1 b2)).
Proof.
  unfold SubsectorSize. intros Hk -> -> L1 L2.
  assert (Ln1 : length B1 = (256 * (2 ^ k * 4096))%nat).
  { unfold len in L1. rewrite <- pow2_nat_Z in L1. lia. }
  assert (Ln2 : length B2 = (256 * (2 ^ k * 4096))%nat).
  { unfold len in L2. rewrite <- pow2_nat_Z in L2. lia. }
  destruct (blob_layout k B1 Hk Ln1)
    as (T1 & b1 & EM1 & _ & _ & _ & Lb1 & EP1 & Hsec1).
  destruct (blob_layout k B2 Hk Ln2)
    as (T2 & b2 & EM2 & _ & _ & _ & Lb2 & EP2 & Hsec2).
  exists T1, T2, b1, b2.
  assert (Hin : forall p : Z,
             In p (DiffWith b1 b2) <->
             0 <= p <= 255 /\
             HashSector (2 ^ Z.of_nat k * 4096)
               (sector_at (2 ^ Z.of_nat k * 4096) B1 p)
             <> HashSector (2 ^ Z.of_nat k * 4096)
                  (sector_at (2 ^ Z.of_nat k * 4096) B2 p)).
  { intros p. rewrite (DiffWith_spec b1 b2 Lb1), In_differing.
    split; intros [Hp Hd]; (split; [exact Hp|]).
    - destruct (Hsec1 (Z.to_nat p) ltac:(lia)) as (h1 & N1 & S1).
      destruct (Hsec2 (Z.to_nat p) ltac:(lia)) as (h2 & N2 & S2).
      rewrite Z2Nat.id in S1, S2 by lia. rewrite S1, S2.
      rewrite (nth_error_nth _ _ zeroHash N1) in Hd.
      rewrite (nth_error_nth _ _ zeroHash N2) in Hd.
      intros E. apply Ok_inj in E. contradiction.
    - destruct (Hsec1 (Z.to_nat p) ltac:(lia)) as (h1 & N1 & S1).
      destruct (Hsec2 (Z.to_nat p) ltac:(lia)) as (h2 & N2 & S2).
      rewrite Z2Nat.id in S1, S2 by lia. rewrite S1, S2 in Hd.
      rewrite (nth_error_nth _ _ zeroHash N1).
      rewrite (nth_error_nth _ _ zeroHash N2).
      intros E. apply Hd. now rewrite E. }
  split; [exact EM1|]. split; [exact EP1|].
  split; [exact EM2|]. split; [exact EP2|].
  split; [exact Hin|].
  intros p Hp Es Hc. apply Hin in Hc as [_ Hd]. apply Hd. now rewrite Es.
Qed.

Lemma DiffWith_changed_sectors_witness :
  let B1 := repeat x00 (256 * (2 ^ 4 * 4096)) in
  let B2 := repeat x01 (256 * (2 ^ 4 * 4096)) in
  exists (T1 T2 : MerkleTree) (b1 b2 : MerkleBase),
    Merkleize 16777216 B1 = ([], Ok T1) /\ ProtocolBase T1 = Ok b1 /\
    Merkleize 16777216 B2 = ([], Ok T2) /\ ProtocolBase T2 = Ok b2 /\
    (forall p : Z,
        In p (DiffWith b1 b2) <->
        0 <= p <= 255 /\
        HashSector 65536 (sector_at 65536 B1 p)
        <> HashSector 65536 (sector_at 65536 B2 p)) /\
    (forall p : Z,
        0 <= p <= 255 ->
        sector_at 65536 B1 p = sector_at 65536 B2 p ->
        ~ In p (DiffWith b1 b2)).
Proof.
  cbv zeta.
  apply (DiffWith_changed_sectors 4 16777216 65536
           (repeat x00 (256 * (2 ^ 4 * 4096)))
           (repeat x01 (256 * (2 ^ 4 * 4096)))).
  - lia.
  - reflexivity.
  - reflexivity.
  - unfold len. rewrite repeat_length, !Nat2Z.inj_mul, pow2_nat_Z.
    reflexivity.
  - unfold len. rewrite repeat_length, !Nat2Z.inj_mul, pow2_nat_Z.
    reflexivity.
Defined.

(** ** All-zero content, continued *)

Lemma zero_root_lookup (j : nat) :
  (j < 12)%nat -> lookup precomputes (zero_root j) = Some (zero_root (S j)).
Proof.
  intros H.
  do 12 (destruct j as [|j]; [vm_compute; reflexivity|]). lia.
Qed.

(** X18: all-zero content collapses.  The tree built from [2^k] all-zero
    subsectors has, at level [i], [2^i] copies of one digest, the all-zero
    digest of height [k - i]; each such digest is Blake2b-256 of the one
    below paired with itself, and up to height 12 it is found in the
    table. *)
Theorem zero_tree_levels (k m : nat) :
  (k <= 31)%nat -> (2 ^ k * 4096 <= m)%nat ->
  exists T : MerkleTree,
    NewMerkleTreeFromReader (repeat x00 m) (2 ^ Z.of_nat k) 4096
    = (repeat x00 (m - 2 ^ k * 4096), Ok T) /\
    Root T = Ok (zero_root k) /\
    (forall i : nat,
        (i <= k)%nat ->
        nth_error T i = Some (repeat (zero_root (k - i)) (2 ^ i))) /\
    (forall j : nat,
        zero_root (S j) = crypto.Blake2B256 [zero_root j; zero_root j]) /\
    (forall j : nat,
        (j < 12)%nat ->
        lookup precomputes (zero_root j) = Some (zero_root (S j))).
Proof.
  intros Hk L. exists (halve_up k [repeat zero4kSectorHash (2 ^ k)]).
  split; [|split; [apply zero_tree_root|split; [|split]]].
  - rewrite zero_tree by assumption. f_equal.
    replace m with (2 ^ k * 4096 + (m - 2 ^ k * 4096))%nat at 1 by lia.
    rewrite repeat_app, skipn_app, repeat_length, Nat.sub_diag.
    rewrite skipn_all2 by (rewrite repeat_length; lia). reflexivity.
  - intros i Hi. now apply zero_tree_level.
  - intros j. change (zero_root (S j))
      with (hashLevel (zero_root j) (zero_root j)).
    apply hashLevel_digest.
  - exact zero_root_lookup.
Qed.

Lemma zero_tree_levels_witness :
  exists T : MerkleTree,
    NewMerkleTreeFromReader (repeat x00 (2 ^ 12 * 4096 + 5))
      (2 ^ Z.of_nat 12) 4096
    = (repeat x00 (2 ^ 12 * 4096 + 5 - 2 ^ 12 * 4096), Ok T) /\
    Root T = Ok (zero_root 12) /\
    (forall i : nat,
        (i <= 12)%nat ->
        nth_error T i = Some (repeat (zero_root (12 - i)) (2 ^ i))) /\
    (forall j : nat,
        zero_root (S j) = crypto.Blake2B256 [zero_root j; zero_root j]) /\
    (forall j : nat,
        (j < 12)%nat ->
        lookup precomputes (zero_root j) = Some (zero_root (S j))).
Proof. apply zero_tree_levels; lia. Defined.

(** ** The root and the base *)

(** X19: the root of a tree is a function of its base.  For a well-formed
    tree of height at least 8 the root is the recursive Merkle hash of the
    256 digests of the base, so two such trees with the same base have the
    same root. *)
Theorem root_from_base (T1 T2 : MerkleTree) :
  WellFormed T1 -> (8 <= height T1)%nat ->
  WellFormed T2 -> (8 <= height T2)%nat ->
  exists b1 b2 : MerkleBase,
    ProtocolBase T1 = Ok b1 /\ ProtocolBase T2 = Ok b2 /\
    Root T1 = Ok (merkle_root 8 b1) /\
    Root T2 = Ok (merkle_root 8 b2) /\
    (b1 = b2 -> Root T1 = Root T2).
Proof.
  assert (H : forall T : MerkleTree,
             WellFormed T -> (8 <= height T)%nat ->
             exists b : MerkleBase,
               ProtocolBase T = Ok b /\ Root T = Ok (merkle_root 8 b)).
  { intros T W H8.
    destruct (WellShaped_level T 8 (proj1 W) H8) as (base & Hb & Lb).
    destruct (WellShaped_level T 0 (proj1 W) ltac:(lia)) as (top & Ht & _).
    exists base. split; [now apply ProtocolBase_level8|].
    rewrite (WellFormed_iter T 8 0 top base W Ht Hb) in Ht.
    rewrite iter_pairs_single in Ht by assumption.
    unfold Root. now rewrite (index_head T _ Ht). }
  intros W1 H1 W2 H2.
  destruct (H T1 W1 H1) as (b1 & P1 & R1).
  destruct (H T2 W2 H2) as (b2 & P2 & R2).
  exists b1, b2. repeat split; try assumption.
  intros ->. now rewrite R1, R2.
Qed.

Lemma root_from_base_witness :
  let T1 := halve_up 8 [repeat EmptyBlobBaseHash 256] in
  let T2 := halve_up 12 [repeat zero4kSectorHash 4096] in
  exists b1 b2 : MerkleBase,
    ProtocolBase T1 = Ok b1 /\ ProtocolBase T2 = Ok b2 /\
    Root T1 = Ok (merkle_root 8 b1) /\
    Root T2 = Ok (merkle_root 8 b2) /\
    (b1 = b2 -> Root T1 = Root T2).
Proof.
  cbv zeta. apply root_from_base.
  - apply halve_up_WellFormed. reflexivity.
  - unfold height. rewrite halve_up_length. simpl. lia.
  - apply halve_up_WellFormed. reflexivity.
  - unfold height. rewrite halve_up_length. simpl. lia.
Defined.
